(** * Balanced team assignment (gyld-teams, src/index.ts)

    A shallow embedding of the scoring, shuffling, snake-draft assignment and
    trial selection of [index.ts].  JavaScript numbers that hold scores,
    totals and averages are modelled as exact rationals [Q]; the standard
    deviation, which takes a square root, is a real number [R].  Player
    objects are shared between the scorer's input and output, so the scorer
    is modelled over an explicit store of records. *)

From Stdlib Require Import List Bool Arith ZArith Lia String Ascii.
From Stdlib Require Import QArith Qround Qminmax Permutation Sorted.
From Stdlib Require Import Reals Qreals Lqa.
Import ListNotations.

Open Scope string_scope.
Open Scope list_scope.
Open Scope Q_scope.

(** ** Data model *)

(** [interface Player]. *)
Record player := mkPlayer {
  player_id : string;
  historical_event_engagements : Q;
  historical_messages_sent : Q;
  days_active_last_30 : Q;
  engagement_score : Q
}.

(** [interface Team]. *)
Record team := mkTeam {
  id : nat;
  players : list player;
  total_engagement_score : Q
}.

(** [p[metric] as number] for the numeric keys of [Player]; the code only
    ever indexes with the three names of [metrics] below. *)
Definition get_metric (p : player) (metric : string) : Q :=
  if String.eqb metric "historical_event_engagements" then historical_event_engagements p
  else if String.eqb metric "historical_messages_sent" then historical_messages_sent p
  else if String.eqb metric "days_active_last_30" then days_active_last_30 p
  else if String.eqb metric "engagement_score" then engagement_score p
  else 0.

(** The [metrics] constant of [readAndProcessPlayerData]. *)
Definition metrics : list string :=
  ["historical_event_engagements"; "historical_messages_sent"; "days_active_last_30"].

(** ** Scorer: [normalizeAndScore] *)

(** [Math.min(...values)] and [Math.max(...values)]: [None] stands for the
    [Infinity] (resp. [-Infinity]) that JavaScript returns on no argument. *)
Definition js_min (values : list Q) : option Q :=
  match values with
  | [] => None
  | v :: vs => Some (fold_left Qmin vs v)
  end.

Definition js_max (values : list Q) : option Q :=
  match values with
  | [] => None
  | v :: vs => Some (fold_left Qmax vs v)
  end.

(** The object [minMax], keyed by metric name: an assignment
    [minMax[metric] = ...] puts the entry in front, a read takes the first. *)
Definition minmax_table := list (string * (option Q * option Q)).

Fixpoint minmax_lookup (k : string) (t : minmax_table) : option (option Q * option Q) :=
  match t with
  | [] => None
  | (k', v) :: t' => if String.eqb k k' then Some v else minmax_lookup k t'
  end.

(** Player objects live in a store; arrays of players are arrays of
    references into it. *)
Definition loc := nat.
Definition store := loc -> player.

Definition store_upd (st : store) (l : loc) (p : player) : store :=
  fun l' => if Nat.eqb l l' then p else st l'.

Definition set_engagement_score (p : player) (s : Q) : player :=
  mkPlayer (player_id p) (historical_event_engagements p)
    (historical_messages_sent p) (days_active_last_30 p) s.

(** [metrics.forEach(metric => { ...; minMax[metric] = {min, max} })]. *)
Definition build_minmax (ls : list loc) (ms : list string) (st : store) : minmax_table :=
  fold_left (fun tbl metric =>
      let values := map (fun l => get_metric (st l) metric) ls in
      (metric, (js_min values, js_max values)) :: tbl) ms [].

(** [(max - min) === 0 ? 0 : (value - min) / (max - min)]. *)
Definition normalized_value (mn mx value : Q) : Q :=
  if Qeq_bool (mx - mn) 0 then 0 else (value - mn) / (mx - mn).

(** The inner [metrics.forEach] accumulating [normalizedScoreSum].  Bounds
    at [Infinity] only come from an empty collection, and then no player
    reaches this point. *)
Definition normalized_score_sum (tbl : minmax_table) (ms : list string) (p : player) : Q :=
  fold_left (fun sum metric =>
      match minmax_lookup metric tbl with
      | Some (Some mn, Some mx) => sum + normalized_value mn mx (get_metric p metric)
      | Some _ => sum
      | None => sum
      end) ms 0.

(** [players.map(player => { ...; player.engagement_score = ...; return player; })]:
    each record is updated in place and the same reference is returned. *)
Fixpoint score_map (tbl : minmax_table) (ms : list string) (ls : list loc) (st : store)
    : list loc * store :=
  match ls with
  | [] => ([], st)
  | l :: ls' =>
      let player := st l in
      let s := normalized_score_sum tbl ms player / inject_Z (Z.of_nat (List.length ms)) in
      let st1 := store_upd st l (set_engagement_score player s) in
      let '(out, st2) := score_map tbl ms ls' st1 in
      (l :: out, st2)
  end.

Definition normalizeAndScore (ls : list loc) (ms : list string) (st : store) : list loc * store :=
  score_map (build_minmax ls ms st) ms ls st.

(** A parsed CSV row (the fields read by [readAndProcessPlayerData]). *)
Record csv_record := mkRecord {
  rec_player_id : string;
  rec_historical_event_engagements : Q;
  rec_historical_messages_sent : Q;
  rec_days_active_last_30 : Q
}.

Definition player_of_record (r : csv_record) : player :=
  mkPlayer (rec_player_id r) (rec_historical_event_engagements r)
    (rec_historical_messages_sent r) (rec_days_active_last_30 r) 0.

Definition empty_player : player := mkPlayer "" 0 0 0 0.

(** [readAndProcessPlayerData] after parsing: fresh records at locations
    [0 .. n-1], scored in place, and the returned references read back. *)
Definition readAndProcessPlayerData (records : list csv_record) : list player :=
  let st := fun l => nth l (map player_of_record records) empty_player in
  let '(ls, st') := normalizeAndScore (seq 0 (List.length records)) metrics st in
  map st' ls.

(** ** Snake-draft assignment *)

(** [teams.sort((a, b) => a.total_engagement_score - b.total_engagement_score)]:
    JavaScript's sort is stable, so the result is the stable sort by total,
    computed here by insertion. *)
Fixpoint insert_by_total (t : team) (ts : list team) : list team :=
  match ts with
  | [] => [t]
  | u :: ts' =>
      if Qle_bool (total_engagement_score t) (total_engagement_score u)
      then t :: ts
      else u :: insert_by_total t ts'
  end.

Fixpoint sort_by_total (ts : list team) : list team :=
  match ts with
  | [] => []
  | t :: ts' => insert_by_total t (sort_by_total ts')
  end.

(** [targetTeam.players.push(player); targetTeam.total_engagement_score += ...]. *)
Definition push_player (t : team) (p : player) : team :=
  mkTeam (id t) (players t ++ [p]) (total_engagement_score t + engagement_score p).

(** One iteration of [shuffledPlayers.forEach]: sort, take [teams[0]], and
    update it when it exists. *)
Definition assign_step (teams : list team) (p : player) : list team :=
  match sort_by_total teams with
  | [] => []
  | target :: rest => push_player target p :: rest
  end.

Definition assign_all (teams : list team) (ps : list player) : list team :=
  fold_left assign_step ps teams.

(** [Array.from({ length: numTeams }, (_, id) => ...)]: the length goes
    through ToLength, which clamps negative counts to 0.  This is the array
    built when the call returns; for a length of [2^32] or more the call
    throws instead (see [array_length_invalid]). *)
Definition init_teams (numTeams : Z) : list team :=
  map (fun i => mkTeam (S i) [] 0) (seq 0 (Z.to_nat numTeams)).

(** [Array.from] creates its result with [new Array(len)], which throws a
    [RangeError] when [len] is not below [2^32]. *)
Definition array_length_invalid (numTeams : Z) : bool := Z.leb 4294967296 numTeams.

(** [t.total_engagement_score / (t.players.length || 1)]. *)
Definition team_avg (t : team) : Q :=
  total_engagement_score t /
    inject_Z (Z.of_nat (match List.length (players t) with O => 1%nat | n => n end)).

(** ** Seeded shuffle *)

(** A value returned by the generator of [seedrandom]: a number in [0, 1). *)
Record unit_draw := mkDraw {
  draw_val : Q;
  draw_lo : 0 <= draw_val;
  draw_hi : draw_val < 1
}.

(** [Math.floor(rng() * n)]. *)
Definition pick_index (r : unit_draw) (n : nat) : nat :=
  Z.to_nat (Qfloor (draw_val r * inject_Z (Z.of_nat n))).

(** [array[i] = v] for an index inside the array. *)
Fixpoint list_set {A : Type} (l : list A) (i : nat) (v : A) : list A :=
  match l, i with
  | [], _ => []
  | _ :: l', O => v :: l'
  | x :: l', S i' => x :: list_set l' i' v
  end.

(** [[array[i], array[j]] = [array[j], array[i]]]: both reads happen before
    the two writes.  The indices are always inside the array (the draws lie
    in [0, 1)); the out-of-range case is never reached. *)
Definition swap {A : Type} (l : list A) (i j : nat) : list A :=
  match nth_error l i, nth_error l j with
  | Some x, Some y => list_set (list_set l i y) j x
  | _, _ => l
  end.

Section Generator.

(** The generator built by [seedrandom(seed)] is a state [G]; [rng] is one
    call of [rng()], returning the draw and the advanced state. *)
Variable G : Type.
Variable seedrandom : string -> G.
Variable rng : G -> unit_draw * G.

(** The [while (currentIndex != 0)] loop of [shuffle]. *)
Fixpoint shuffle_loop {A : Type} (currentIndex : nat) (array : list A) (g : G)
    : list A * G :=
  match currentIndex with
  | O => (array, g)
  | S ci =>
      let (r, g') := rng g in
      let randomIndex := pick_index r currentIndex in
      shuffle_loop ci (swap array ci randomIndex) g'
  end.

Definition shuffle {A : Type} (array : list A) (g : G) : list A * G :=
  shuffle_loop (List.length array) array g.

(** ** Trials *)

(** [calculateStandardDeviation]: population standard deviation. *)
Definition calculateStandardDeviation (numbers : list Q) : R :=
  if Nat.eqb (List.length numbers) 0 then 0%R
  else
    let n := inject_Z (Z.of_nat (List.length numbers)) in
    let mean := fold_left Qplus numbers 0 / n in
    let variance := fold_left (fun a b => a + (b - mean) ^ 2) numbers 0 / n in
    sqrt (Q2R variance).

Definition trials : nat := 10.

Fixpoint string_of_nat_aux (fuel n : nat) (acc : string) : string :=
  match fuel with
  | O => acc
  | S f =>
      let acc' := String (ascii_of_nat (48 + n mod 10)) acc in
      if Nat.ltb n 10 then acc' else string_of_nat_aux f (n / 10) acc'
  end.

Definition string_of_nat (n : nat) : string := string_of_nat_aux (S n) n "".

(** [`${seed}-${i}`], the seed being given by its decimal text. *)
Definition trialSeed (seed : string) (i : nat) : string :=
  String.append seed (String.append "-" (string_of_nat i)).

(** One trial: shuffle a copy of the players with [seedrandom(trialSeed)]
    and run the snake draft over fresh teams. *)
Definition run_trial (ps : list player) (numTeams : Z) (seed : string) (i : nat)
    : list team :=
  let shuffledPlayers := fst (shuffle ps (seedrandom (trialSeed seed i))) in
  assign_all (init_teams numTeams) shuffledPlayers.

Definition trial_stddev (teams : list team) : R :=
  calculateStandardDeviation (map team_avg teams).

(** The loop's running state; [None] is the initial [Infinity]. *)
Record best_state := mkBest {
  bestAssignment : list team;
  lowestStdDev : option R;
  bestTrialIndex : Z
}.

(** [stdDev < lowestStdDev]. *)
Definition lt_lowest (sd : R) (lowest : option R) : bool :=
  match lowest with
  | None => true
  | Some l => if Rlt_dec sd l then true else false
  end.

Definition trial_update (ps : list player) (numTeams : Z) (seed : string)
    (b : best_state) (i : nat) : best_state :=
  let teams := run_trial ps numTeams seed i in
  let stdDev := trial_stddev teams in
  if lt_lowest stdDev (lowestStdDev b)
  then mkBest teams (Some stdDev) (Z.of_nat i + 1)
  else b.

Definition run_trials (ps : list player) (numTeams : Z) (seed : string) : best_state :=
  fold_left (trial_update ps numTeams seed) (seq 0 trials) (mkBest [] None (-1)).

End Generator.

Arguments shuffle_loop {G} rng {A}.
Arguments shuffle {G} rng {A}.
Arguments run_trial {G} seedrandom rng.
Arguments trial_update {G} seedrandom rng.
Arguments run_trials {G} seedrandom rng.

(** ** Output *)

(** [bestAssignment.sort((a, b) => a.id - b.id)], stable. *)
Fixpoint insert_by_id (t : team) (ts : list team) : list team :=
  match ts with
  | [] => [t]
  | u :: ts' => if Nat.leb (id t) (id u) then t :: ts else u :: insert_by_id t ts'
  end.

Fixpoint sort_by_id (ts : list team) : list team :=
  match ts with
  | [] => []
  | t :: ts' => insert_by_id t (sort_by_id ts')
  end.

(** What the final report prints: the lines [<player_id> -> new_team_<id>]
    and, per team, its id, size and average. *)
Record report := mkReport {
  assignment_lines : list (string * nat);
  team_summary : list (nat * nat * Q)
}.

Definition make_report (best : list team) : report :=
  let sorted := sort_by_id best in
  mkReport
    (flat_map (fun t => map (fun p => (player_id p, id t)) (players t)) sorted)
    (map (fun t => (id t, List.length (players t), team_avg t)) sorted).

(** Reading and parsing the CSV file either yields the rows or throws. *)
Inductive read_result :=
| ReadOk (records : list csv_record)
| ReadFailed (message : string).

(** [main().catch(...)]: a thrown error ends the run with exit code 1.
    Every trial calls [Array.from] with the same length, so when that length
    is invalid the first trial throws, before any output of the report. *)
Inductive run_result :=
| RunOk (r : report)
| RunFailed (message : string).

Definition main_run {G : Type} (seedrandom : string -> G) (rng : G -> unit_draw * G)
    (input : read_result) (numTeams : Z) (seed : string) : run_result :=
  match input with
  | ReadFailed msg => RunFailed msg
  | ReadOk records =>
      let ps := readAndProcessPlayerData records in
      if array_length_invalid numTeams then RunFailed "RangeError: Invalid array length"
      else
        let b := run_trials seedrandom rng ps numTeams seed in
        RunOk (make_report (bestAssignment b))
  end.

(** ** Reference definitions following the spec's words

    These are not part of the program: each one restates a sentence of the
    specification so that the program's definitions can be compared with
    it. *)

(** The shuffle as the spec describes it: for [i] from [length - 1] down to
    [1], draw [j] in [[0, i]] from the generator and swap positions [i] and
    [j]. *)
Fixpoint fisher_yates_spec_loop {G A : Type} (rng : G -> unit_draw * G)
    (i : nat) (array : list A) (g : G) : list A * G :=
  match i with
  | O => (array, g)
  | S i' =>
      let (r, g') := rng g in
      let j := pick_index r (S i) in
      fisher_yates_spec_loop rng i' (swap array i j) g'
  end.

Definition fisher_yates_spec {G A : Type} (rng : G -> unit_draw * G)
    (array : list A) (g : G) : list A * G :=
  match List.length array with
  | O => (array, g)
  | S n => fisher_yates_spec_loop rng n array g
  end.

(** Population standard deviation over the reals: divide by [n]. *)
Definition R_sum (xs : list R) : R := fold_right Rplus 0%R xs.

Definition population_stddev (xs : list Q) : R :=
  let n := INR (List.length xs) in
  let mu := (R_sum (map Q2R xs) / n)%R in
  sqrt (R_sum (map (fun x => (Q2R x - mu) ^ 2)%R xs) / n)%R.

(** All the players held by a partition, team after team. *)
Definition members (teams : list team) : list player :=
  List.concat (map players teams).

(** The values of one metric across the records at [ls]. *)
Definition metric_values (st : store) (ls : list loc) (metric : string) : list Q :=
  map (fun l => get_metric (st l) metric) ls.

Definition is_min (m : Q) (vs : list Q) : Prop := In m vs /\ Forall (fun v => m <= v) vs.
Definition is_max (m : Q) (vs : list Q) : Prop := In m vs /\ Forall (fun v => v <= m) vs.

(** Min-max normalization, [0] for a metric whose min equals its max. *)
Definition minmax_normalized (mn mx value : Q) : Q :=
  if Qeq_bool mx mn then 0 else (value - mn) / (mx - mn).

(** A small fixed generator, used to evaluate the model at concrete inputs:
    its state counts the draws and it alternates [1/2] and [0]. *)
Definition draw_zero : unit_draw := mkDraw 0 ltac:(vm_compute; discriminate) ltac:(reflexivity).
Definition draw_half : unit_draw := mkDraw (1 # 2) ltac:(vm_compute; discriminate) ltac:(reflexivity).

Definition sample_rng (n : nat) : unit_draw * nat :=
  (if Nat.even n then draw_half else draw_zero, S n).

Definition sample_seedrandom (seed : string) : nat := String.length seed.

(** The score [normalizeAndScore] writes for a record. *)
Definition score_of (tbl : minmax_table) (p : player) : Q :=
  normalized_score_sum tbl metrics p / inject_Z (Z.of_nat (List.length metrics)).

Definition is_empty_team (t : team) : bool := Nat.eqb (List.length (players t)) 0.
Definition is_singleton_team (t : team) : bool := Nat.eqb (List.length (players t)) 1.

(** A team is empty with total [0], or holds one player of positive score
    with that score as its total. *)
Definition spread_team (t : team) : Prop :=
  (players t = [] /\ total_engagement_score t == 0) \/
  (exists p, players t = [p] /\ total_engagement_score t == engagement_score p /\
             0 < engagement_score p).

(** The records used to show that the scorer writes into its input. *)
Definition scorer_sample_store : store :=
  fun l => nth l [mkPlayer "a" 0 0 0 0; mkPlayer "b" 1 1 1 0] empty_player.

(** The sum of a team's players' scores. *)
Definition team_sum (t : team) : Q := fold_right Qplus 0 (map engagement_score (players t)).

(** * Proofs *)

(** ** The stable sort by total *)

Lemma insert_by_total_perm (t : team) (ts : list team) :
  Permutation (insert_by_total t ts) (t :: ts).
Proof.
  induction ts as [|u ts IH]; simpl; [reflexivity|].
  destruct (Qle_bool _ _); [reflexivity|].
  rewrite IH. apply perm_swap.
Qed.

Lemma sort_by_total_perm (ts : list team) : Permutation (sort_by_total ts) ts.
Proof.
  induction ts as [|t ts IH]; simpl; [reflexivity|].
  rewrite insert_by_total_perm, IH. reflexivity.
Qed.

Lemma insert_by_total_front (t : team) (ts : list team) :
  (forall u, In u ts -> total_engagement_score t <= total_engagement_score u) ->
  insert_by_total t ts = t :: ts.
Proof.
  destruct ts as [|u ts]; intros H; simpl; [reflexivity|].
  rewrite (proj2 (Qle_bool_iff _ _)); [reflexivity|].
  apply H; left; reflexivity.
Qed.

(** The first team of minimal total, in the current order, comes out first
    and the others keep their stable order. *)
Lemma sort_by_total_first_min (pre : list team) (t : team) (post : list team) :
  (forall u, In u pre -> total_engagement_score t < total_engagement_score u) ->
  (forall u, In u post -> total_engagement_score t <= total_engagement_score u) ->
  sort_by_total (pre ++ t :: post) = t :: sort_by_total (pre ++ post).
Proof.
  induction pre as [|u pre IH]; intros Hpre Hpost; simpl.
  - apply insert_by_total_front.
    intros u Hu. apply Hpost.
    apply (Permutation_in _ (sort_by_total_perm post)), Hu.
  - rewrite IH by (intros; auto with datatypes).
    simpl.
    assert (Hlt : total_engagement_score t < total_engagement_score u) by auto with datatypes.
    destruct (Qle_bool (total_engagement_score u) (total_engagement_score t)) eqn:E.
    + apply Qle_bool_iff in E. apply Qle_not_lt in E. contradiction.
    + reflexivity.
Qed.

Lemma first_min_exists (ts : list team) :
  ts <> [] ->
  exists pre t post,
    ts = pre ++ t :: post /\
    (forall u, In u pre -> total_engagement_score t < total_engagement_score u) /\
    (forall u, In u ts -> total_engagement_score t <= total_engagement_score u).
Proof.
  induction ts as [|u ts IH]; intros Hne; [congruence|].
  destruct ts as [|v ts'].
  - exists [], u, []. repeat split; simpl; [tauto|].
    intros w [<-|[]]. apply Qle_refl.
  - destruct IH as (pre & t & post & Heq & Hpre & Hmin); [discriminate|].
    destruct (Qlt_le_dec (total_engagement_score t) (total_engagement_score u)) as [Hlt|Hle].
    + exists (u :: pre), t, post. rewrite Heq. repeat split.
      * intros w [<-|Hw]; auto.
      * intros w [<-|Hw]; [apply Qlt_le_weak; exact Hlt|].
        apply Hmin. rewrite Heq. exact Hw.
    + exists [], u, (v :: ts'). repeat split; simpl; [tauto|].
      intros w [<-|Hw]; [apply Qle_refl|].
      eapply Qle_trans; [exact Hle|]. apply Hmin. exact Hw.
Qed.

Lemma assign_step_spec (ts : list team) (p : player) :
  ts <> [] ->
  exists pre target post,
    ts = pre ++ target :: post /\
    (forall u, In u ts -> total_engagement_score target <= total_engagement_score u) /\
    (forall u, In u pre -> total_engagement_score target < total_engagement_score u) /\
    assign_step ts p = push_player target p :: sort_by_total (pre ++ post).
Proof.
  intros Hne.
  destruct (first_min_exists ts Hne) as (pre & t & post & Heq & Hpre & Hmin).
  exists pre, t, post. repeat split; auto.
  unfold assign_step. rewrite Heq, sort_by_total_first_min; [reflexivity|exact Hpre|].
  intros u Hu. apply Hmin. rewrite Heq. auto with datatypes.
Qed.

Lemma assign_step_length (ts : list team) (p : player) :
  List.length (assign_step ts p) = List.length ts.
Proof.
  unfold assign_step.
  rewrite <- (Permutation_length (sort_by_total_perm ts)).
  destruct (sort_by_total ts); reflexivity.
Qed.

Lemma assign_all_length (ts : list team) (ps : list player) :
  List.length (assign_all ts ps) = List.length ts.
Proof.
  unfold assign_all. revert ts.
  induction ps as [|p ps IH]; intros ts; simpl; [reflexivity|].
  rewrite IH. apply assign_step_length.
Qed.

Lemma assign_all_snoc (ts : list team) (ps : list player) (p : player) :
  assign_all ts (ps ++ [p]) = assign_step (assign_all ts ps) p.
Proof. unfold assign_all. rewrite fold_left_app. reflexivity. Qed.

Lemma init_teams_length (numTeams : Z) :
  List.length (init_teams numTeams) = Z.to_nat numTeams.
Proof. unfold init_teams. rewrite length_map, length_seq. reflexivity. Qed.

Lemma firstn_S_nth {A : Type} (l : list A) (k : nat) (d : A) :
  (k < List.length l)%nat -> firstn (S k) l = firstn k l ++ [nth k l d].
Proof.
  revert k. induction l as [|x l IH]; intros k Hk; simpl in Hk; [lia|].
  destruct k as [|k]; [reflexivity|].
  simpl. f_equal. simpl in IH. apply IH. lia.
Qed.

(** Claim C1: at every step of the snake draft over [N >= 1] fresh teams,
    the player is appended to the first team, in the arrangement left by the
    previous step, whose total is minimal; that team's total grows by the
    player's score, and the other teams stay in stable order by total. *)
Theorem snake_draft_step_min (numTeams : Z) (ps : list player) (k : nat) :
  (1 <= numTeams)%Z -> (k < List.length ps)%nat ->
  let before := assign_all (init_teams numTeams) (firstn k ps) in
  exists pre target post,
    before = pre ++ target :: post /\
    (forall u, In u before -> total_engagement_score target <= total_engagement_score u) /\
    (forall u, In u pre -> total_engagement_score target < total_engagement_score u) /\
    assign_all (init_teams numTeams) (firstn (S k) ps) =
      mkTeam (id target) (players target ++ [nth k ps empty_player])
        (total_engagement_score target + engagement_score (nth k ps empty_player))
      :: sort_by_total (pre ++ post).
Proof.
  intros HN Hk before.
  assert (Hne : before <> []).
  { intros E. apply (f_equal (@List.length team)) in E.
    unfold before in E. rewrite assign_all_length, init_teams_length in E.
    simpl in E. lia. }
  destruct (assign_step_spec before (nth k ps empty_player) Hne)
    as (pre & t & post & Heq & Hmin & Hpre & Hstep).
  exists pre, t, post. repeat split; auto.
  rewrite (firstn_S_nth ps k empty_player Hk), assign_all_snoc.
  exact Hstep.
Qed.

Lemma snake_draft_step_min_witness :
  (1 <= 2)%Z /\ (1 < List.length [mkPlayer "a" 0 0 0 (1 # 2); mkPlayer "b" 0 0 0 (1 # 3)])%nat /\
  let ps := [mkPlayer "a" 0 0 0 (1 # 2); mkPlayer "b" 0 0 0 (1 # 3)] in
  let before := assign_all (init_teams 2) (firstn 1 ps) in
  exists pre target post,
    before = pre ++ target :: post /\
    (forall u, In u before -> total_engagement_score target <= total_engagement_score u) /\
    (forall u, In u pre -> total_engagement_score target < total_engagement_score u) /\
    assign_all (init_teams 2) (firstn 2 ps) =
      mkTeam (id target) (players target ++ [nth 1 ps empty_player])
        (total_engagement_score target + engagement_score (nth 1 ps empty_player))
      :: sort_by_total (pre ++ post).
Proof.
  split; [lia|]. split; [simpl; lia|].
  apply (snake_draft_step_min 2 _ 1); simpl; lia.
Defined.

(** ** Conservation of players *)

Lemma Permutation_concat_lists {A : Type} (L1 L2 : list (list A)) :
  Permutation L1 L2 -> Permutation (List.concat L1) (List.concat L2).
Proof.
  induction 1; simpl.
  - reflexivity.
  - apply Permutation_app_head. assumption.
  - rewrite !app_assoc. apply Permutation_app_tail, Permutation_app_comm.
  - etransitivity; eassumption.
Qed.

Lemma members_perm (ts ts' : list team) :
  Permutation ts ts' -> Permutation (members ts) (members ts').
Proof.
  intros H. unfold members. apply Permutation_concat_lists, Permutation_map, H.
Qed.

Lemma assign_step_members (ts : list team) (p : player) :
  ts <> [] -> Permutation (members (assign_step ts p)) (members ts ++ [p]).
Proof.
  intros Hne. unfold assign_step.
  pose proof (members_perm _ _ (sort_by_total_perm ts)) as Hperm.
  destruct (sort_by_total ts) as [|t rest] eqn:E.
  - apply Permutation_nil in Hperm.
    destruct ts; [congruence|].
    pose proof (Permutation_length (sort_by_total_perm (t :: ts))) as Hl.
    rewrite E in Hl. discriminate.
  - unfold members in *. simpl in *.
    rewrite <- app_assoc.
    rewrite <- Hperm.
    rewrite <- app_assoc.
    apply Permutation_app_head, Permutation_app_comm.
Qed.

Lemma assign_all_members (ts : list team) (ps : list player) :
  ts <> [] -> Permutation (members (assign_all ts ps)) (members ts ++ ps).
Proof.
  unfold assign_all. revert ts.
  induction ps as [|p ps IH]; intros ts Hne; simpl.
  - rewrite app_nil_r. reflexivity.
  - rewrite IH.
    + rewrite assign_step_members by exact Hne.
      rewrite <- app_assoc. reflexivity.
    + intros E. apply (f_equal (@List.length team)) in E.
      rewrite assign_step_length in E. destruct ts; [congruence|discriminate].
Qed.

Lemma members_init_teams (numTeams : Z) : members (init_teams numTeams) = [].
Proof.
  unfold members, init_teams. induction (seq 0 (Z.to_nat numTeams)); simpl; auto.
Qed.

(** ** The shuffle *)

Lemma list_set_perm {A : Type} (l : list A) (i : nat) (x y : A) :
  nth_error l i = Some x -> Permutation (list_set l i y ++ [x]) (l ++ [y]).
Proof.
  revert i. induction l as [|a l IH]; intros [|i] H; simpl in *; try discriminate.
  - injection H as <-.
    rewrite <- Permutation_cons_append. rewrite perm_swap.
    apply perm_skip, Permutation_cons_append.
  - apply perm_skip, IH, H.
Qed.

Lemma nth_error_list_set_same {A : Type} (l : list A) (i : nat) (x v : A) :
  nth_error l i = Some x -> nth_error (list_set l i v) i = Some v.
Proof.
  revert i. induction l as [|a l IH]; intros [|i] H; simpl in *; try discriminate; auto.
Qed.

Lemma nth_error_list_set_other {A : Type} (l : list A) (i j : nat) (v : A) :
  i <> j -> nth_error (list_set l i v) j = nth_error l j.
Proof.
  revert i j. induction l as [|a l IH]; intros [|i] [|j] H; simpl; auto; try congruence.
Qed.

Lemma swap_perm {A : Type} (l : list A) (i j : nat) : Permutation (swap l i j) l.
Proof.
  unfold swap.
  destruct (nth_error l i) as [x|] eqn:Ei; [|reflexivity].
  destruct (nth_error l j) as [y|] eqn:Ej; [|reflexivity].
  assert (Ej' : nth_error (list_set l i y) j = Some y).
  { destruct (Nat.eq_dec i j) as [<-|Hij].
    - eapply nth_error_list_set_same; eassumption.
    - rewrite nth_error_list_set_other by exact Hij. exact Ej. }
  apply (Permutation_app_inv_r [y]).
  rewrite (list_set_perm _ _ _ _ Ej').
  apply list_set_perm, Ei.
Qed.

Lemma swap_same {A : Type} (l : list A) (i : nat) : swap l i i = l.
Proof.
  unfold swap. destruct (nth_error l i) as [x|] eqn:E; [|reflexivity].
  revert i E. induction l as [|a l IH]; intros [|i] E; simpl in *; try discriminate.
  - injection E as ->. reflexivity.
  - f_equal. apply IH, E.
Qed.

Lemma shuffle_loop_perm {G A : Type} (rng : G -> unit_draw * G) (n : nat) (l : list A) (g : G) :
  Permutation (fst (shuffle_loop rng n l g)) l.
Proof.
  revert l g. induction n as [|n IH]; intros l g; simpl; [reflexivity|].
  destruct (rng g) as [r g'].
  rewrite IH. apply swap_perm.
Qed.

Lemma Qfloor_unique (x : Q) (z : Z) :
  inject_Z z <= x -> x < inject_Z (z + 1) -> Qfloor x = z.
Proof.
  intros Hlo Hhi.
  apply Qfloor_resp_le in Hlo. rewrite Qfloor_Z in Hlo.
  assert (Hf : inject_Z (Qfloor x) < inject_Z (z + 1)).
  { eapply Qle_lt_trans; [apply Qfloor_le|exact Hhi]. }
  rewrite <- Zlt_Qlt in Hf. lia.
Qed.

Lemma pick_index_range (r : unit_draw) (i : nat) : (pick_index r (S i) <= i)%nat.
Proof.
  unfold pick_index.
  set (n := inject_Z (Z.of_nat (S i))).
  assert (Hlt : draw_val r * n < inject_Z (Z.of_nat (S i))).
  { unfold n. rewrite <- (Qmult_1_l (inject_Z (Z.of_nat (S i)))) at 2.
    apply Qmult_lt_r; [|apply draw_hi].
    change 0 with (inject_Z 0). rewrite <- Zlt_Qlt. lia. }
  assert (Hf : inject_Z (Qfloor (draw_val r * n)) < inject_Z (Z.of_nat (S i))).
  { eapply Qle_lt_trans; [apply Qfloor_le|exact Hlt]. }
  rewrite <- Zlt_Qlt in Hf. lia.
Qed.

Lemma pick_index_nonneg (r : unit_draw) (n : nat) :
  (0 <= Qfloor (draw_val r * inject_Z (Z.of_nat n)))%Z.
Proof.
  rewrite <- (Qfloor_Z 0). apply Qfloor_resp_le.
  apply Qmult_le_0_compat; [apply draw_lo|].
  change 0 with (inject_Z 0). rewrite <- Zle_Qle. lia.
Qed.

(** [Math.floor(r * n)] equals [k] exactly when [r] lies in the interval
    [[k/n, (k+1)/n)], of width [1/n] for every [k]. *)
Lemma pick_index_interval (r : unit_draw) (i k : nat) :
  pick_index r (S i) = k <->
  inject_Z (Z.of_nat k) / inject_Z (Z.of_nat (S i)) <= draw_val r /\
  draw_val r < inject_Z (Z.of_nat (S k)) / inject_Z (Z.of_nat (S i)).
Proof.
  set (n := inject_Z (Z.of_nat (S i))).
  assert (Hn : 0 < n) by (unfold n; change 0 with (inject_Z 0); rewrite <- Zlt_Qlt; lia).
  assert (Hn0 : ~ n == 0) by (intros E; rewrite E in Hn; discriminate).
  unfold pick_index. fold n.
  pose proof (pick_index_nonneg r (S i)) as Hnn. fold n in Hnn.
  split.
  - intros Hk.
    assert (Hz : Qfloor (draw_val r * n) = Z.of_nat k) by lia.
    pose proof (Qfloor_le (draw_val r * n)) as Hle.
    pose proof (Qlt_floor (draw_val r * n)) as Hlt.
    rewrite Hz in Hle, Hlt.
    split.
    + apply Qle_shift_div_r; [exact Hn|exact Hle].
    + apply Qlt_shift_div_l; [exact Hn|].
      replace (Z.of_nat (S k)) with (Z.of_nat k + 1)%Z by lia. exact Hlt.
  - intros [Hlo Hhi].
    assert (Hz : Qfloor (draw_val r * n) = Z.of_nat k).
    { apply Qfloor_unique.
      - apply Qmult_le_compat_r with (z := n) in Hlo; [|apply Qlt_le_weak, Hn].
        setoid_replace (inject_Z (Z.of_nat k) / n * n) with (inject_Z (Z.of_nat k)) in Hlo
          by (field; exact Hn0).
        exact Hlo.
      - apply Qmult_lt_r with (z := n) in Hhi; [|exact Hn].
        setoid_replace (inject_Z (Z.of_nat (S k)) / n * n) with (inject_Z (Z.of_nat (S k))) in Hhi
          by (field; exact Hn0).
        replace (Z.of_nat k + 1)%Z with (Z.of_nat (S k)) by lia. exact Hhi. }
    rewrite Hz. apply Nat2Z.id.
Qed.

Lemma pick_index_one (r : unit_draw) : pick_index r 1 = O.
Proof.
  pose proof (pick_index_range r 0). lia.
Qed.

Lemma shuffle_loop_spec_loop {G A : Type} (rng : G -> unit_draw * G) (n : nat) (l : list A) (g : G) :
  fst (shuffle_loop rng (S n) l g) = fst (fisher_yates_spec_loop rng n l g).
Proof.
  revert l g. induction n as [|n IH]; intros l g.
  - simpl. destruct (rng g) as [r g']. simpl.
    rewrite pick_index_one, swap_same. reflexivity.
  - change (shuffle_loop rng (S (S n)) l g) with
      (let (r, g') := rng g in
       shuffle_loop rng (S n) (swap l (S n) (pick_index r (S (S n)))) g').
    simpl. destruct (rng g) as [r g']. apply IH.
Qed.

(** Claim C4: the shuffle returns a permutation of its input; it returns the
    same array as the spec's swap-based shuffle (index [i] from [length-1]
    down to [1], [j] drawn in [[0, i]], swap [i] and [j]) run on the same
    generator; every drawn index [j] lies in [[0, i]], each value being taken
    on a sub-interval of [[0, 1)] of width [1/(i+1)]; and equal seeds give
    equal permutations. *)
Theorem shuffle_is_seeded_fisher_yates {G A : Type} (seedrandom : string -> G)
    (rng : G -> unit_draw * G) (l : list A) (seed : string) :
  Permutation (fst (shuffle rng l (seedrandom seed))) l /\
  fst (shuffle rng l (seedrandom seed)) = fst (fisher_yates_spec rng l (seedrandom seed)) /\
  (forall (r : unit_draw) (i : nat), (pick_index r (S i) <= i)%nat) /\
  (forall (r : unit_draw) (i k : nat), (k <= i)%nat ->
     (pick_index r (S i) = k <->
      inject_Z (Z.of_nat k) / inject_Z (Z.of_nat (S i)) <= draw_val r /\
      draw_val r < inject_Z (Z.of_nat (S k)) / inject_Z (Z.of_nat (S i)))) /\
  (forall seed' : string, seed' = seed ->
     fst (shuffle rng l (seedrandom seed')) = fst (shuffle rng l (seedrandom seed))).
Proof.
  split; [apply shuffle_loop_perm|].
  split.
  { unfold shuffle, fisher_yates_spec.
    destruct (List.length l) as [|n]; [reflexivity|].
    apply shuffle_loop_spec_loop. }
  split; [apply pick_index_range|].
  split; [intros r i k _; apply pick_index_interval|].
  intros seed' ->. reflexivity.
Qed.

(** ** Trial selection *)

Section Selection.

Variable G : Type.
Variable seedrandom : string -> G.
Variable rng : G -> unit_draw * G.
Variable ps : list player.
Variable numTeams : Z.
Variable seed : string.

Let trial i := run_trial seedrandom rng ps numTeams seed i.
Let sd i := trial_stddev (trial i).

Lemma trial_fold_invariant (n : nat) :
  let b := fold_left (trial_update seedrandom rng ps numTeams seed) (seq 0 n)
             (mkBest [] None (-1)) in
  (n = O /\ b = mkBest [] None (-1)) \/
  exists k, (k < n)%nat /\
    b = mkBest (trial k) (Some (sd k)) (Z.of_nat k + 1) /\
    (forall i, (i < n)%nat -> (sd k <= sd i)%R) /\
    (forall i, (i < k)%nat -> (sd k < sd i)%R).
Proof.
  induction n as [|n IH]; [left; auto|].
  right. cbv zeta in IH |- *. rewrite seq_S, fold_left_app. cbn [fold_left Nat.add].
  destruct IH as [[-> ->]|(k & Hk & -> & Hmin & Hfirst)].
  - exists O. simpl. unfold trial_update. simpl. repeat split; auto.
    + intros i Hi. replace i with O by lia. apply Rle_refl.
    + intros i Hi. lia.
  - unfold trial_update at 1. simpl.
    destruct (Rlt_dec (trial_stddev (run_trial seedrandom rng ps numTeams seed n)) (sd k))
      as [Hlt|Hnlt].
    + exists n. repeat split; auto.
      * intros i Hi. destruct (Nat.eq_dec i n) as [->|Hne]; [apply Rle_refl|].
        apply Rlt_le. eapply Rlt_le_trans; [exact Hlt|]. apply Hmin. lia.
      * intros i Hi. eapply Rlt_le_trans; [exact Hlt|]. apply Hmin. exact Hi.
    + exists k. repeat split; auto.
      intros i Hi. destruct (Nat.eq_dec i n) as [->|Hne].
      * apply Rnot_lt_le. exact Hnlt.
      * apply Hmin. lia.
Qed.

Lemma run_trials_selects :
  let b := run_trials seedrandom rng ps numTeams seed in
  exists k, (k < trials)%nat /\
    b = mkBest (trial k) (Some (sd k)) (Z.of_nat k + 1) /\
    (forall i, (i < trials)%nat -> (sd k <= sd i)%R) /\
    (forall i, (i < k)%nat -> (sd k < sd i)%R).
Proof.
  destruct (trial_fold_invariant trials) as [[H _]|H]; [discriminate|exact H].
Qed.

(** The chosen partition is one of the trials' partitions. *)
Lemma run_trials_best_is_trial :
  exists k, (k < trials)%nat /\
    bestAssignment (run_trials seedrandom rng ps numTeams seed) = trial k.
Proof.
  destruct run_trials_selects as (k & Hk & Hb & _).
  exists k. split; [exact Hk|]. rewrite Hb. reflexivity.
Qed.

End Selection.

(** ** The standard deviation as a real number *)

Lemma Q2R_fold_add (f : Q -> Q) (xs : list Q) (a : Q) :
  Q2R (fold_left (fun acc b => acc + f b) xs a) = (Q2R a + R_sum (map (fun x => Q2R (f x)) xs))%R.
Proof.
  revert a. induction xs as [|x xs IH]; intros a; simpl.
  - unfold R_sum. simpl. ring.
  - rewrite IH, Q2R_plus. unfold R_sum. simpl. ring.
Qed.

Lemma Q2R_zero : Q2R 0 = 0%R.
Proof. unfold Q2R. simpl. field. Qed.

Lemma Q2R_of_nat (n : nat) : Q2R (inject_Z (Z.of_nat n)) = INR n.
Proof. unfold Q2R. simpl. rewrite INR_IZR_INZ. field. Qed.

Lemma calculateStandardDeviation_population (xs : list Q) :
  xs <> [] -> calculateStandardDeviation xs = population_stddev xs.
Proof.
  intros Hne. unfold calculateStandardDeviation, population_stddev.
  destruct (Nat.eqb (List.length xs) 0) eqn:E.
  { apply Nat.eqb_eq, length_zero_iff_nil in E. contradiction. }
  apply Nat.eqb_neq in E.
  set (n := inject_Z (Z.of_nat (List.length xs))).
  assert (Hn : ~ n == 0).
  { unfold n. change 0 with (inject_Z 0). rewrite inject_Z_injective. lia. }
  f_equal.
  rewrite Q2R_div by exact Hn.
  rewrite (Q2R_fold_add (fun b => (b - fold_left Qplus xs 0 / n) ^ 2)).
  unfold n. rewrite Q2R_of_nat, Q2R_zero, Rplus_0_l.
  f_equal. f_equal. apply map_ext. intros x.
  change ((x - fold_left Qplus xs 0 / inject_Z (Z.of_nat (List.length xs))) ^ 2) with
    ((x - fold_left Qplus xs 0 / inject_Z (Z.of_nat (List.length xs))) *
     (x - fold_left Qplus xs 0 / inject_Z (Z.of_nat (List.length xs)))).
  rewrite Q2R_mult, Q2R_minus, Q2R_div by exact Hn.
  rewrite Q2R_of_nat.
  replace (fold_left Qplus xs 0) with (fold_left (fun acc b => acc + (fun y => y) b) xs 0) by reflexivity.
  rewrite Q2R_fold_add, Q2R_zero, Rplus_0_l.
  replace (map (fun x0 : Q => Q2R ((fun y : Q => y) x0)) xs) with (map Q2R xs)
    by (apply map_ext; reflexivity).
  ring.
Qed.

(** Claim C2: the selector runs [trials = 10] trials; a trial's dispersion
    is the population standard deviation (divisor [N]) of the team averages,
    an empty team's average using divisor [1]; the kept partition is the one
    of a trial [k] whose dispersion is at most every trial's, and every
    earlier trial has a strictly larger one, so ties keep the earliest. *)
Theorem trial_selection_first_minimum {G : Type} (seedrandom : string -> G)
    (rng : G -> unit_draw * G) (ps : list player) (numTeams : Z) (seed : string) :
  trials = 10%nat /\
  (forall teams, teams <> [] -> trial_stddev teams = population_stddev (map team_avg teams)) /\
  (forall t, team_avg t ==
     total_engagement_score t / inject_Z (Z.of_nat (Nat.max 1 (List.length (players t))))) /\
  let b := run_trials seedrandom rng ps numTeams seed in
  let sd i := trial_stddev (run_trial seedrandom rng ps numTeams seed i) in
  exists k, (k < trials)%nat /\
    bestAssignment b = run_trial seedrandom rng ps numTeams seed k /\
    lowestStdDev b = Some (sd k) /\
    bestTrialIndex b = (Z.of_nat k + 1)%Z /\
    (forall i, (i < trials)%nat -> (sd k <= sd i)%R) /\
    (forall i, (i < k)%nat -> (sd k < sd i)%R).
Proof.
  split; [reflexivity|].
  split.
  { intros teams Hne. unfold trial_stddev.
    apply calculateStandardDeviation_population.
    destruct teams; [contradiction|discriminate]. }
  split.
  { intros t. unfold team_avg. destruct (List.length (players t)) as [|n]; reflexivity. }
  destruct (run_trials_selects G seedrandom rng ps numTeams seed)
    as (k & Hk & Hb & Hmin & Hfirst).
  exists k. rewrite Hb. repeat split; auto.
Qed.

Lemma insert_by_id_perm (t : team) (ts : list team) :
  Permutation (insert_by_id t ts) (t :: ts).
Proof.
  induction ts as [|u ts IH]; simpl; [reflexivity|].
  destruct (Nat.leb _ _); [reflexivity|].
  rewrite IH. apply perm_swap.
Qed.

Lemma sort_by_id_perm (ts : list team) : Permutation (sort_by_id ts) ts.
Proof.
  induction ts as [|t ts IH]; simpl; [reflexivity|].
  rewrite insert_by_id_perm, IH. reflexivity.
Qed.

Lemma run_trial_members {G : Type} (seedrandom : string -> G) (rng : G -> unit_draw * G)
    (ps : list player) (numTeams : Z) (seed : string) (i : nat) :
  (1 <= numTeams)%Z ->
  Permutation (members (run_trial seedrandom rng ps numTeams seed i)) ps.
Proof.
  intros HN. unfold run_trial.
  rewrite assign_all_members.
  - rewrite members_init_teams. simpl. apply shuffle_loop_perm.
  - intros E. apply (f_equal (@List.length team)) in E.
    rewrite init_teams_length in E. simpl in E. lia.
Qed.

(** Claim C5: with [N >= 1] teams, every trial's partition and the chosen
    partition (also once sorted by id for the report) hold exactly the input
    players, each as often as in the input. *)
Theorem players_conserved {G : Type} (seedrandom : string -> G) (rng : G -> unit_draw * G)
    (ps : list player) (numTeams : Z) (seed : string) :
  (1 <= numTeams)%Z ->
  (forall i, Permutation (members (run_trial seedrandom rng ps numTeams seed i)) ps) /\
  Permutation (members (bestAssignment (run_trials seedrandom rng ps numTeams seed))) ps /\
  Permutation (members (sort_by_id (bestAssignment (run_trials seedrandom rng ps numTeams seed)))) ps.
Proof.
  intros HN.
  assert (Htrial : forall i, Permutation (members (run_trial seedrandom rng ps numTeams seed i)) ps)
    by (intros i; apply run_trial_members, HN).
  destruct (run_trials_best_is_trial G seedrandom rng ps numTeams seed) as (k & _ & Hk).
  repeat split; auto.
  - rewrite Hk. apply Htrial.
  - rewrite (members_perm _ _ (sort_by_id_perm _)), Hk. apply Htrial.
Qed.

Lemma players_conserved_witness :
  (1 <= 2)%Z /\
  let ps := [mkPlayer "a" 0 0 0 (1 # 2); mkPlayer "b" 0 0 0 (1 # 3); mkPlayer "c" 0 0 0 0] in
  (forall i, Permutation (members (run_trial sample_seedrandom sample_rng ps 2 "7" i)) ps) /\
  Permutation (members (bestAssignment (run_trials sample_seedrandom sample_rng ps 2 "7"))) ps /\
  Permutation (members (sort_by_id (bestAssignment (run_trials sample_seedrandom sample_rng ps 2 "7")))) ps.
Proof.
  split; [lia|]. apply players_conserved. lia.
Defined.

(** ** The scorer *)

Lemma get_metric_set_score (p : player) (s : Q) (m : string) :
  In m metrics -> get_metric (set_engagement_score p s) m = get_metric p m.
Proof.
  intros [<-|[<-|[<-|[]]]]; destruct p; reflexivity.
Qed.

Lemma normalized_score_sum_set (tbl : minmax_table) (p : player) (s : Q) :
  normalized_score_sum tbl metrics (set_engagement_score p s) =
  normalized_score_sum tbl metrics p.
Proof. destruct p; reflexivity. Qed.

Lemma set_engagement_score_twice (p : player) (s s' : Q) :
  set_engagement_score (set_engagement_score p s) s' = set_engagement_score p s'.
Proof. destruct p; reflexivity. Qed.

(** The map returns the references it was given; each listed record gets
    its score written in place, every other record is untouched. *)
Lemma score_map_result (tbl : minmax_table) (ls : list loc) (st : store) :
  fst (score_map tbl metrics ls st) = ls /\
  forall l, snd (score_map tbl metrics ls st) l =
    if in_dec Nat.eq_dec l ls
    then set_engagement_score (st l) (score_of tbl (st l))
    else st l.
Proof.
  revert st. induction ls as [|l0 ls IH]; intros st; [split; reflexivity|].
  simpl.
  set (st1 := store_upd st l0 _).
  destruct (IH st1) as [Hfst Hsnd].
  destruct (score_map tbl metrics ls st1) as [out st2]. simpl in *.
  split; [congruence|].
  intros l. rewrite Hsnd.
  unfold st1, store_upd.
  destruct (Nat.eq_dec l0 l) as [<-|Hne].
  - rewrite Nat.eqb_refl.
    destruct (in_dec Nat.eq_dec l0 ls); [|reflexivity].
    rewrite set_engagement_score_twice. unfold score_of.
    rewrite normalized_score_sum_set. reflexivity.
  - rewrite (proj2 (Nat.eqb_neq _ _) Hne).
    destruct (in_dec Nat.eq_dec l ls); reflexivity.
Qed.

Lemma fold_min_is_min (vs : list Q) (v : Q) : is_min (fold_left Qmin vs v) (v :: vs).
Proof.
  revert v. induction vs as [|x vs IH]; intros v; simpl.
  - split; [left; reflexivity|]. constructor; [apply Qle_refl|constructor].
  - destruct (IH (Qmin v x)) as [Hin Hall].
    inversion Hall as [|? ? Hm Hrest]; subst.
    split.
    + destruct Hin as [Hin|Hin]; [|right; right; exact Hin].
      assert (Hmx : Qmin v x = v \/ Qmin v x = x)
        by (unfold Qmin, GenericMinMax.gmin; destruct (v ?= x); auto).
      rewrite <- Hin. destruct Hmx as [E|E]; rewrite E; auto with datatypes.
    + constructor; [|constructor; [|exact Hrest]].
      * eapply Qle_trans; [exact Hm|apply Q.le_min_l].
      * eapply Qle_trans; [exact Hm|apply Q.le_min_r].
Qed.

Lemma fold_max_is_max (vs : list Q) (v : Q) : is_max (fold_left Qmax vs v) (v :: vs).
Proof.
  revert v. induction vs as [|x vs IH]; intros v; simpl.
  - split; [left; reflexivity|]. constructor; [apply Qle_refl|constructor].
  - destruct (IH (Qmax v x)) as [Hin Hall].
    inversion Hall as [|? ? Hm Hrest]; subst.
    split.
    + destruct Hin as [Hin|Hin]; [|right; right; exact Hin].
      assert (Hmx : Qmax v x = v \/ Qmax v x = x)
        by (unfold Qmax, GenericMinMax.gmax; destruct (v ?= x); auto).
      rewrite <- Hin. destruct Hmx as [E|E]; rewrite E; auto with datatypes.
    + constructor; [|constructor; [|exact Hrest]].
      * eapply Qle_trans; [apply Q.le_max_l|exact Hm].
      * eapply Qle_trans; [apply Q.le_max_r|exact Hm].
Qed.

Lemma Qeq_bool_minus_zero (mn mx : Q) : Qeq_bool (mx - mn) 0 = Qeq_bool mx mn.
Proof.
  destruct (Qeq_bool mx mn) eqn:E.
  - apply Qeq_bool_iff. apply Qeq_bool_iff in E. rewrite E. ring.
  - apply Qeq_bool_neq in E. apply not_true_iff_false.
    intros H. apply Qeq_bool_iff in H. apply E.
    setoid_replace mx with ((mx - mn) + mn) by ring. rewrite H. ring.
Qed.

Lemma minmax_normalized_bounds (mn mx v : Q) :
  mn <= v -> v <= mx -> 0 <= minmax_normalized mn mx v <= 1.
Proof.
  intros Hlo Hhi. unfold minmax_normalized.
  destruct (Qeq_bool mx mn) eqn:E; [split; discriminate|].
  apply Qeq_bool_neq in E.
  assert (Hlt : mn < mx).
  { destruct (Qle_lt_or_eq _ _ (Qle_trans _ _ _ Hlo Hhi)) as [H|H]; [exact H|].
    exfalso. apply E. rewrite H. reflexivity. }
  assert (Hd : 0 < mx - mn) by (apply Qlt_minus_iff in Hlt; exact Hlt).
  split.
  - apply Qle_shift_div_l; [exact Hd|]. rewrite Qmult_0_l.
    apply Qle_minus_iff in Hlo. exact Hlo.
  - apply Qle_shift_div_r; [exact Hd|]. rewrite Qmult_1_l.
    apply Qplus_le_l with (z := mn). ring_simplify. exact Hhi.
Qed.

Lemma normalized_value_minmax (mn mx v : Q) :
  normalized_value mn mx v = minmax_normalized mn mx v.
Proof.
  unfold normalized_value, minmax_normalized. rewrite Qeq_bool_minus_zero. reflexivity.
Qed.

Lemma mean3_bounds (a b c : Q) :
  0 <= a <= 1 -> 0 <= b <= 1 -> 0 <= c <= 1 -> 0 <= (a + (b + (c + 0))) / 3 <= 1.
Proof.
  intros [Ha1 Ha2] [Hb1 Hb2] [Hc1 Hc2].
  assert (H3 : 0 < 3) by reflexivity.
  split.
  - apply Qle_shift_div_l; [exact H3|]. lra.
  - apply Qle_shift_div_r; [exact H3|]. lra.
Qed.

(** Claim C3: for a non-empty collection, each player's score is the mean,
    over the three metrics, of [(value - min) / (max - min)] with min and
    max taken across all players ([0] when they are equal); it lies in
    [[0, 1]]. *)
Theorem scorer_mean_of_minmax (ls : list loc) (st : store) (l : loc) :
  ls <> [] -> In l ls ->
  let st' := snd (normalizeAndScore ls metrics st) in
  exists mn mx : string -> Q,
    (forall m, In m metrics ->
       is_min (mn m) (metric_values st ls m) /\ is_max (mx m) (metric_values st ls m)) /\
    engagement_score (st' l) ==
      fold_right Qplus 0
        (map (fun m => minmax_normalized (mn m) (mx m) (get_metric (st l) m)) metrics) / 3 /\
    0 <= engagement_score (st' l) <= 1.
Proof.
  intros Hne Hin st'.
  destruct (score_map_result (build_minmax ls metrics st) ls st) as [_ Hsnd].
  unfold st', normalizeAndScore. rewrite Hsnd.
  destruct (in_dec Nat.eq_dec l ls) as [_|Hn]; [|contradiction].
  destruct ls as [|l0 ls']; [contradiction|].
  set (mn := fun m => fold_left Qmin (map (fun l => get_metric (st l) m) ls') (get_metric (st l0) m)).
  set (mx := fun m => fold_left Qmax (map (fun l => get_metric (st l) m) ls') (get_metric (st l0) m)).
  assert (Hmm : forall m, In m metrics ->
            is_min (mn m) (metric_values st (l0 :: ls') m) /\
            is_max (mx m) (metric_values st (l0 :: ls') m)).
  { intros m _. split; [apply fold_min_is_min|apply fold_max_is_max]. }
  exists mn, mx. split; [exact Hmm|].
  assert (Hnv : forall m, In m metrics ->
            0 <= minmax_normalized (mn m) (mx m) (get_metric (st l) m) <= 1).
  { intros m Hm. destruct (Hmm m Hm) as [[_ Hlo] [_ Hhi]].
    assert (Hv : In (get_metric (st l) m) (metric_values st (l0 :: ls') m))
      by (apply in_map_iff; exists l; auto).
    rewrite Forall_forall in Hlo, Hhi.
    apply minmax_normalized_bounds; auto. }
  assert (Heq : engagement_score (set_engagement_score (st l)
                  (score_of (build_minmax (l0 :: ls') metrics st) (st l))) ==
                fold_right Qplus 0
                  (map (fun m => minmax_normalized (mn m) (mx m) (get_metric (st l) m)) metrics) / 3).
  { unfold score_of, normalized_score_sum, build_minmax, metrics.
    simpl. rewrite !normalized_value_minmax. unfold mn, mx. simpl. field. }
  split; [exact Heq|].
  rewrite Heq. simpl.
  apply mean3_bounds; apply Hnv; simpl; tauto.
Qed.

Lemma scorer_mean_of_minmax_witness :
  let st := fun l => nth l [mkPlayer "a" 1 5 3 0; mkPlayer "b" 4 5 0 0] empty_player in
  [0; 1]%nat <> [] /\ In 0%nat [0; 1]%nat /\
  let st' := snd (normalizeAndScore [0; 1]%nat metrics st) in
  exists mn mx : string -> Q,
    (forall m, In m metrics ->
       is_min (mn m) (metric_values st [0; 1]%nat m) /\
       is_max (mx m) (metric_values st [0; 1]%nat m)) /\
    engagement_score (st' 0%nat) ==
      fold_right Qplus 0
        (map (fun m => minmax_normalized (mn m) (mx m) (get_metric (st 0%nat) m)) metrics) / 3 /\
    0 <= engagement_score (st' 0%nat) <= 1.
Proof.
  intros st. split; [discriminate|]. split; [simpl; auto|].
  apply scorer_mean_of_minmax; [discriminate|simpl; auto].
Defined.

(** Claim C9 (as stated: the input records are left unchanged) fails: the
    record ["b"] at location [1] holds score [0] before the call and [1]
    after it. *)
Lemma scorer_mutates_input_record :
  engagement_score (scorer_sample_store 1%nat) == 0 /\
  engagement_score (snd (normalizeAndScore [0; 1]%nat metrics scorer_sample_store) 1%nat) == 1 /\
  snd (normalizeAndScore [0; 1]%nat metrics scorer_sample_store) 1%nat <> scorer_sample_store 1%nat.
Proof.
  split; [reflexivity|]. split; [reflexivity|].
  vm_compute. intros H. injection H as H. discriminate H.
Qed.

(** Claim C9, as the code does it: the scorer returns a new array holding
    the same references it was given; it leaves every record's id and
    metric values, and every record outside the input, unchanged, but it
    writes each input record's [engagement_score] in place: after the call
    the record at [l] is the record before the call with its score replaced
    by the computed score [score_of] of that record. *)
Theorem scorer_updates_scores_in_place (ls : list loc) (st : store) :
  fst (normalizeAndScore ls metrics st) = ls /\
  (forall l, player_id (snd (normalizeAndScore ls metrics st) l) = player_id (st l) /\
     forall m, In m metrics ->
       get_metric (snd (normalizeAndScore ls metrics st) l) m = get_metric (st l) m) /\
  (forall l, ~ In l ls -> snd (normalizeAndScore ls metrics st) l = st l) /\
  (forall l, In l ls ->
     snd (normalizeAndScore ls metrics st) l =
       set_engagement_score (st l) (score_of (build_minmax ls metrics st) (st l))).
Proof.
  unfold normalizeAndScore.
  destruct (score_map_result (build_minmax ls metrics st) ls st) as [Hfst Hsnd].
  split; [exact Hfst|].
  split; [|split].
  - intros l. rewrite Hsnd. destruct (in_dec Nat.eq_dec l ls).
    + split; [destruct (st l); reflexivity|]. intros m Hm. apply get_metric_set_score, Hm.
    + split; reflexivity.
  - intros l Hn. rewrite Hsnd. destruct (in_dec Nat.eq_dec l ls); [contradiction|reflexivity].
  - intros l Hl. rewrite Hsnd. destruct (in_dec Nat.eq_dec l ls); [reflexivity|contradiction].
Qed.

(** ** Degenerate runs *)

Lemma main_run_ok {G : Type} (seedrandom : string -> G) (rng : G -> unit_draw * G)
    (records : list csv_record) (numTeams : Z) (seed : string) :
  (numTeams < 4294967296)%Z ->
  main_run seedrandom rng (ReadOk records) numTeams seed =
  RunOk (make_report (bestAssignment
           (run_trials seedrandom rng (readAndProcessPlayerData records) numTeams seed))).
Proof.
  intros H. unfold main_run, array_length_invalid.
  rewrite (proj2 (Z.leb_gt _ _) H). reflexivity.
Qed.

Lemma assign_all_no_teams (qs : list player) : assign_all [] qs = [].
Proof.
  unfold assign_all. induction qs as [|q qs IH]; simpl; [reflexivity|exact IH].
Qed.

Lemma init_teams_nonpositive (numTeams : Z) : (numTeams <= 0)%Z -> init_teams numTeams = [].
Proof.
  intros H. unfold init_teams. replace (Z.to_nat numTeams) with O by lia. reflexivity.
Qed.

Lemma run_trial_nonpositive {G : Type} (seedrandom : string -> G) (rng : G -> unit_draw * G)
    (ps : list player) (numTeams : Z) (seed : string) (i : nat) :
  (numTeams <= 0)%Z -> run_trial seedrandom rng ps numTeams seed i = [].
Proof.
  intros H. unfold run_trial. rewrite init_teams_nonpositive by exact H.
  apply assign_all_no_teams.
Qed.

Lemma run_trials_nonpositive {G : Type} (seedrandom : string -> G) (rng : G -> unit_draw * G)
    (ps : list player) (numTeams : Z) (seed : string) :
  (numTeams <= 0)%Z ->
  bestAssignment (run_trials seedrandom rng ps numTeams seed) = [] /\
  lowestStdDev (run_trials seedrandom rng ps numTeams seed) = Some 0%R.
Proof.
  intros H.
  destruct (run_trials_selects G seedrandom rng ps numTeams seed) as (k & _ & Hb & _).
  rewrite Hb. simpl. rewrite run_trial_nonpositive by exact H. split; reflexivity.
Qed.

(** Claim C10: with [0] teams nothing fails: the team list is empty, each
    assignment step finds no team and changes nothing, so every player is
    dropped, and the standard deviation of no averages is [0]. *)
Theorem zero_teams_no_failure {G : Type} (seedrandom : string -> G) (rng : G -> unit_draw * G)
    (ps : list player) (seed : string) :
  init_teams 0 = [] /\
  (forall p, assign_step [] p = []) /\
  (forall qs, assign_all [] qs = []) /\
  calculateStandardDeviation [] = 0%R /\
  (forall i, run_trial seedrandom rng ps 0 seed i = [] /\
             members (run_trial seedrandom rng ps 0 seed i) = [] /\
             trial_stddev (run_trial seedrandom rng ps 0 seed i) = 0%R) /\
  bestAssignment (run_trials seedrandom rng ps 0 seed) = [] /\
  lowestStdDev (run_trials seedrandom rng ps 0 seed) = Some 0%R.
Proof.
  split; [reflexivity|].
  split; [reflexivity|].
  split; [apply assign_all_no_teams|].
  split; [reflexivity|].
  split.
  - intros i. rewrite run_trial_nonpositive by lia. repeat split; reflexivity.
  - apply run_trials_nonpositive. lia.
Qed.

(** Claim C7 (as stated: [N <= 0] makes the run fail) fails: with [0]
    teams the run on a parsed input completes. *)
Lemma nonpositive_teams_no_error :
  ~ exists msg, main_run sample_seedrandom sample_rng
                  (ReadOk [mkRecord "a" 1 2 3]) 0 "1" = RunFailed msg.
Proof. intros [msg H]. discriminate H. Qed.

(** Claim C7, as the code does it: a team count [N <= 0] raises no error;
    every trial has an empty team list, so every player is dropped, the
    chosen partition is empty, and the run completes with no assignment line
    and no team summary. *)
Theorem nonpositive_teams_empty_report {G : Type} (seedrandom : string -> G)
    (rng : G -> unit_draw * G) (records : list csv_record) (numTeams : Z) (seed : string) :
  (numTeams <= 0)%Z ->
  (forall i, run_trial seedrandom rng (readAndProcessPlayerData records) numTeams seed i = [] /\
     members (run_trial seedrandom rng (readAndProcessPlayerData records) numTeams seed i) = []) /\
  bestAssignment (run_trials seedrandom rng (readAndProcessPlayerData records) numTeams seed) = [] /\
  main_run seedrandom rng (ReadOk records) numTeams seed = RunOk (mkReport [] []).
Proof.
  intros H. split; [|split].
  - intros i. rewrite run_trial_nonpositive by exact H. split; reflexivity.
  - apply (run_trials_nonpositive seedrandom rng _ numTeams seed H).
  - rewrite main_run_ok by lia.
    rewrite (proj1 (run_trials_nonpositive seedrandom rng _ numTeams seed H)).
    reflexivity.
Qed.

Lemma nonpositive_teams_empty_report_witness :
  (-2 <= 0)%Z /\
  (forall i, run_trial sample_seedrandom sample_rng
               (readAndProcessPlayerData [mkRecord "a" 1 2 3]) (-2) "1" i = [] /\
     members (run_trial sample_seedrandom sample_rng
               (readAndProcessPlayerData [mkRecord "a" 1 2 3]) (-2) "1" i) = []) /\
  bestAssignment (run_trials sample_seedrandom sample_rng
                    (readAndProcessPlayerData [mkRecord "a" 1 2 3]) (-2) "1") = [] /\
  main_run sample_seedrandom sample_rng (ReadOk [mkRecord "a" 1 2 3]) (-2) "1" =
    RunOk (mkReport [] []).
Proof.
  split; [lia|]. apply nonpositive_teams_empty_report. lia.
Defined.

Lemma sort_by_id_fresh_teams (a n : nat) :
  sort_by_id (map (fun i => mkTeam (S i) [] 0) (seq a n)) =
  map (fun i => mkTeam (S i) [] 0) (seq a n).
Proof.
  revert a. induction n as [|n IH]; intros a; [reflexivity|].
  simpl. rewrite IH.
  destruct n as [|n]; simpl; [reflexivity|].
  rewrite (proj2 (Nat.leb_le a (S a))) by lia. reflexivity.
Qed.

Lemma run_trial_no_players {G : Type} (seedrandom : string -> G) (rng : G -> unit_draw * G)
    (numTeams : Z) (seed : string) (i : nat) :
  run_trial seedrandom rng [] numTeams seed i = init_teams numTeams.
Proof. reflexivity. Qed.

(** Claim C8 (as stated: an empty input makes the run fail) fails: with no
    parsed row the run completes. *)
Lemma empty_input_no_error :
  ~ exists msg, main_run sample_seedrandom sample_rng (ReadOk []) 2 "1" = RunFailed msg.
Proof. intros [msg H]. discriminate H. Qed.

(** Claim C8, as the code does it: with no parsed row no error is raised;
    the scorer returns an empty collection and, for a team count [N] below
    [2^32], the run completes, reporting no assignment line and every one of
    the [N] teams with size [0] and average [0]. *)
Theorem empty_input_empty_teams {G : Type} (seedrandom : string -> G)
    (rng : G -> unit_draw * G) (numTeams : Z) (seed : string) :
  (numTeams < 4294967296)%Z ->
  readAndProcessPlayerData [] = [] /\
  main_run seedrandom rng (ReadOk []) numTeams seed =
    RunOk (mkReport [] (map (fun i => (S i, O, 0)) (seq 0 (Z.to_nat numTeams)))).
Proof.
  intros HB. split; [reflexivity|].
  rewrite main_run_ok by exact HB.
  change (readAndProcessPlayerData []) with (@nil player).
  destruct (run_trials_best_is_trial G seedrandom rng [] numTeams seed) as (k & _ & Hk).
  rewrite Hk, run_trial_no_players.
  unfold make_report, init_teams. rewrite sort_by_id_fresh_teams.
  f_equal. f_equal.
  - induction (seq 0 (Z.to_nat numTeams)); simpl; auto.
  - rewrite map_map. reflexivity.
Qed.

Lemma empty_input_empty_teams_witness :
  (3 < 4294967296)%Z /\
  readAndProcessPlayerData [] = [] /\
  main_run sample_seedrandom sample_rng (ReadOk []) 3 "8" =
    RunOk (mkReport [] (map (fun i => (S i, O, 0)) (seq 0 (Z.to_nat 3)))).
Proof.
  split; [lia|]. apply empty_input_empty_teams. lia.
Defined.

(** ** More teams than players *)

Lemma filter_length_perm {A : Type} (f : A -> bool) (l l' : list A) :
  Permutation l l' -> List.length (filter f l) = List.length (filter f l').
Proof.
  induction 1; simpl; auto.
  - destruct (f x); simpl; auto.
  - destruct (f x), (f y); reflexivity.
  - congruence.
Qed.

Lemma spread_counts (ts : list team) :
  Forall spread_team ts ->
  (List.length (filter is_singleton_team ts) + List.length (filter is_empty_team ts))%nat =
  List.length ts.
Proof.
  induction 1 as [|t ts Ht _ IH]; simpl; [reflexivity|].
  destruct Ht as [[Hp _]|(p & Hp & _)];
    unfold is_singleton_team, is_empty_team in *; rewrite Hp; simpl; lia.
Qed.

Lemma assign_step_spread (ts : list team) (p : player) :
  Forall spread_team ts -> 0 < engagement_score p ->
  (1 <= List.length (filter is_empty_team ts))%nat ->
  Forall spread_team (assign_step ts p) /\
  List.length (filter is_empty_team (assign_step ts p)) =
    (List.length (filter is_empty_team ts) - 1)%nat.
Proof.
  intros Hall Hp Hcount.
  assert (Hne : ts <> []) by (intros ->; simpl in Hcount; lia).
  destruct (filter is_empty_team ts) as [|e es] eqn:Ef; [simpl in Hcount; lia|].
  assert (He : In e ts /\ is_empty_team e = true)
    by (apply filter_In; rewrite Ef; left; reflexivity).
  destruct (assign_step_spec ts p Hne) as (pre & t & post & Heq & Hmin & _ & Hstep).
  rewrite Forall_forall in Hall.
  assert (Ht : players t = [] /\ total_engagement_score t == 0).
  { assert (Hte : total_engagement_score t <= 0).
    { destruct He as [Hein Hee].
      destruct (Hall e Hein) as [[_ Hz]|(q & Hq & _)].
      - rewrite <- Hz. apply Hmin, Hein.
      - unfold is_empty_team in Hee. rewrite Hq in Hee. discriminate. }
    assert (Htin : In t ts) by (rewrite Heq; auto with datatypes).
    destruct (Hall t Htin) as [Hz|(q & Hq & Htot & Hpos)]; [exact Hz|].
    exfalso. rewrite Htot in Hte. apply (Qlt_not_le _ _ Hpos Hte). }
  assert (Hrest : forall u, In u (sort_by_total (pre ++ post)) -> spread_team u).
  { intros u Hu. apply Hall. rewrite Heq.
    apply (Permutation_in _ (sort_by_total_perm _)) in Hu.
    apply in_app_or in Hu as [Hu|Hu]; auto with datatypes. }
  rewrite Hstep. split.
  - constructor.
    + right. exists p. unfold push_player. simpl. destruct Ht as [-> Hz].
      repeat split; auto. rewrite Hz. ring.
    + apply Forall_forall, Hrest.
  - assert (Hpush : is_empty_team (push_player t p) = false).
    { unfold is_empty_team, push_player. cbn [players].
      rewrite length_app. apply Nat.eqb_neq. simpl. lia. }
    assert (Het : is_empty_team t = true)
      by (unfold is_empty_team; destruct Ht as [-> _]; reflexivity).
    rewrite <- Ef. cbn [filter]. rewrite Hpush.
    rewrite (filter_length_perm _ _ _ (sort_by_total_perm _)).
    rewrite Heq, !filter_app. cbn [filter]. rewrite Het.
    rewrite !length_app. cbn [List.length]. lia.
Qed.

Lemma assign_all_spread (ts : list team) (qs : list player) :
  Forall spread_team ts -> Forall (fun q => 0 < engagement_score q) qs ->
  (List.length qs <= List.length (filter is_empty_team ts))%nat ->
  Forall spread_team (assign_all ts qs) /\
  List.length (filter is_empty_team (assign_all ts qs)) =
    (List.length (filter is_empty_team ts) - List.length qs)%nat.
Proof.
  unfold assign_all. revert ts.
  induction qs as [|q qs IH]; intros ts Hall Hpos Hlen; simpl.
  - split; [exact Hall|lia].
  - inversion Hpos as [|? ? Hq Hqs]; subst. simpl in Hlen.
    destruct (assign_step_spread ts q Hall Hq) as [Hall' Hcnt]; [lia|].
    destruct (IH (assign_step ts q) Hall' Hqs) as [H1 H2]; [lia|].
    split; [exact H1|]. lia.
Qed.

Lemma init_teams_spread (numTeams : Z) :
  Forall spread_team (init_teams numTeams) /\
  List.length (filter is_empty_team (init_teams numTeams)) = Z.to_nat numTeams.
Proof.
  unfold init_teams. induction (Z.to_nat numTeams) as [|n IH]; [split; [constructor|reflexivity]|].
  rewrite seq_S, map_app, filter_app, length_app, Forall_app. simpl.
  destruct IH as [H1 H2]. split; [split; [exact H1|]|lia].
  constructor; [left; split; reflexivity|constructor].
Qed.

(** Claim C6 (as stated: with more teams than players, each player gets a
    team of its own) fails: two players with equal metrics both score [0];
    the team holding the first one still has total [0] and stays first in
    the stable order, so it also takes the second, and no team of the
    chosen partition has exactly one player. *)
Lemma zero_scores_share_a_team :
  let ps := readAndProcessPlayerData [mkRecord "a" 1 1 1; mkRecord "b" 1 1 1] in
  let best := bestAssignment (run_trials sample_seedrandom sample_rng ps 3 "1") in
  (Z.of_nat (List.length ps) < 3)%Z /\
  List.length (filter is_singleton_team best) = O /\
  List.length (filter is_empty_team best) = 2%nat /\
  existsb (fun t => Nat.eqb (List.length (players t)) 2) best = true.
Proof.
  intros ps best.
  destruct (run_trials_best_is_trial nat sample_seedrandom sample_rng ps 3 "1") as (k & Hk & Hb).
  unfold best. rewrite Hb.
  assert (Hsame : run_trial sample_seedrandom sample_rng ps 3 "1" k =
                  run_trial sample_seedrandom sample_rng ps 3 "1" 0).
  { unfold trials in Hk.
    do 10 (destruct k as [|k]; [vm_compute; reflexivity|]). lia. }
  rewrite Hsame.
  split; [vm_compute; reflexivity|].
  split; [vm_compute; reflexivity|].
  split; vm_compute; reflexivity.
Qed.

(** Claim C6, as the code does it: with more teams than players and every
    player's score positive, the chosen partition has [N] teams, exactly
    [player_count] of them hold one player each, with that player's score
    as average, and the other [N - player_count] are empty with average
    [0].  (A player of score [0] leaves its team tied with the empty ones
    and first in the stable order, as [zero_scores_share_a_team] shows.) *)
Theorem more_teams_than_positive_players {G : Type} (seedrandom : string -> G)
    (rng : G -> unit_draw * G) (ps : list player) (numTeams : Z) (seed : string) :
  (Z.of_nat (List.length ps) < numTeams)%Z ->
  Forall (fun p => 0 < engagement_score p) ps ->
  let best := bestAssignment (run_trials seedrandom rng ps numTeams seed) in
  List.length best = Z.to_nat numTeams /\
  List.length (filter is_singleton_team best) = List.length ps /\
  List.length (filter is_empty_team best) = (Z.to_nat numTeams - List.length ps)%nat /\
  Forall (fun t => (players t = [] /\ team_avg t == 0) \/
                   (exists p, players t = [p] /\ team_avg t == engagement_score p)) best.
Proof.
  intros HN Hpos best.
  destruct (run_trials_best_is_trial G seedrandom rng ps numTeams seed) as (k & _ & Hk).
  unfold best. rewrite Hk. unfold run_trial.
  set (sh := fst (shuffle rng ps (seedrandom (trialSeed seed k)))).
  assert (Hperm : Permutation sh ps) by apply shuffle_loop_perm.
  assert (Hshpos : Forall (fun p => 0 < engagement_score p) sh).
  { rewrite Forall_forall in Hpos |- *. intros x Hx.
    apply Hpos. apply (Permutation_in _ Hperm), Hx. }
  destruct (init_teams_spread numTeams) as [Hinit Hcnt].
  destruct (assign_all_spread (init_teams numTeams) sh Hinit Hshpos) as [Hall Hempty].
  { rewrite Hcnt, (Permutation_length Hperm). lia. }
  pose proof (spread_counts _ Hall) as Hsum.
  rewrite assign_all_length, init_teams_length in Hsum.
  rewrite (Permutation_length Hperm) in Hempty.
  rewrite Hcnt in Hempty.
  split; [rewrite assign_all_length, init_teams_length; reflexivity|].
  split; [lia|].
  split; [exact Hempty|].
  rewrite Forall_forall in Hall |- *. intros t Ht.
  destruct (Hall t Ht) as [[Hp Hz]|(p & Hp & Htot & _)].
  - left. split; [exact Hp|]. unfold team_avg. rewrite Hp, Hz. reflexivity.
  - right. exists p. split; [exact Hp|]. unfold team_avg. rewrite Hp, Htot.
    change (engagement_score p / 1 == engagement_score p). field.
Qed.

Lemma more_teams_than_positive_players_witness :
  (Z.of_nat (List.length [mkPlayer "a" 0 0 0 (1 # 2)]) < 2)%Z /\
  Forall (fun p => 0 < engagement_score p) [mkPlayer "a" 0 0 0 (1 # 2)] /\
  let best := bestAssignment
                (run_trials sample_seedrandom sample_rng [mkPlayer "a" 0 0 0 (1 # 2)] 2 "5") in
  List.length best = Z.to_nat 2 /\
  List.length (filter is_singleton_team best) = List.length [mkPlayer "a" 0 0 0 (1 # 2)] /\
  List.length (filter is_empty_team best) =
    (Z.to_nat 2 - List.length [mkPlayer "a" 0 0 0 (1 # 2)])%nat /\
  Forall (fun t => (players t = [] /\ team_avg t == 0) \/
                   (exists p, players t = [p] /\ team_avg t == engagement_score p)) best.
Proof.
  assert (Hpos : Forall (fun p => 0 < engagement_score p) [mkPlayer "a" 0 0 0 (1 # 2)])
    by (repeat constructor).
  split; [simpl; lia|]. split; [exact Hpos|].
  apply more_teams_than_positive_players; [simpl; lia|exact Hpos].
Defined.

(** * Further properties of the code *)

(** ** Reading and scoring the rows *)

Lemma map_nth_seq_all {A : Type} (L : list A) (d : A) :
  map (fun l => nth l L d) (seq 0 (List.length L)) = L.
Proof.
  induction L as [|x L IH]; [reflexivity|].
  simpl. f_equal. rewrite <- seq_shift, map_map. exact IH.
Qed.

(** The score written for any record, over a non-empty collection
    [l0 :: ls'], as the mean of the min-max normalized metric values. *)
Lemma score_of_formula (l0 : loc) (ls' : list loc) (st : store) (p : player) :
  score_of (build_minmax (l0 :: ls') metrics st) p ==
  fold_right Qplus 0
    (map (fun m => minmax_normalized
                     (fold_left Qmin (map (fun l => get_metric (st l) m) ls') (get_metric (st l0) m))
                     (fold_left Qmax (map (fun l => get_metric (st l) m) ls') (get_metric (st l0) m))
                     (get_metric p m)) metrics) / 3.
Proof.
  unfold score_of, normalized_score_sum, build_minmax, metrics.
  simpl. rewrite !normalized_value_minmax. simpl. field.
Qed.

Lemma score_of_bounds (ls : list loc) (st : store) (l : loc) :
  In l ls -> 0 <= score_of (build_minmax ls metrics st) (st l) <= 1.
Proof.
  intros Hin. destruct ls as [|l0 ls']; [contradiction|].
  rewrite score_of_formula. simpl.
  apply mean3_bounds;
    [set (m := "historical_event_engagements") | set (m := "historical_messages_sent")
    | set (m := "days_active_last_30")];
    destruct (fold_min_is_min (map (fun l => get_metric (st l) m) ls') (get_metric (st l0) m))
      as [_ Hlo];
    destruct (fold_max_is_max (map (fun l => get_metric (st l) m) ls') (get_metric (st l0) m))
      as [_ Hhi];
    rewrite Forall_forall in Hlo, Hhi;
    (assert (Hv : In (get_metric (st l) m)
                    (get_metric (st l0) m :: map (fun l => get_metric (st l) m) ls'))
       by (change (In (get_metric (st l) m) (map (fun k => get_metric (st k) m) (l0 :: ls')));
           apply (in_map (fun k => get_metric (st k) m)); exact Hin));
    apply minmax_normalized_bounds; auto.
Qed.

Lemma engagement_score_set (p : player) (s : Q) :
  engagement_score (set_engagement_score p s) = s.
Proof. reflexivity. Qed.

(** [readAndProcessPlayerData] in terms of the store after scoring. *)
Lemma readAndProcessPlayerData_store (records : list csv_record) :
  let st := fun l => nth l (map player_of_record records) empty_player in
  let ls := seq 0 (List.length records) in
  readAndProcessPlayerData records =
    map (fun l => set_engagement_score (st l) (score_of (build_minmax ls metrics st) (st l))) ls.
Proof.
  intros st ls. unfold readAndProcessPlayerData, normalizeAndScore. fold st ls.
  destruct (score_map_result (build_minmax ls metrics st) ls st) as [Hf Hs].
  destruct (score_map (build_minmax ls metrics st) metrics ls st) as [out st'].
  simpl in Hf, Hs. subst out.
  apply map_ext_in. intros l Hl. rewrite Hs.
  destruct (in_dec Nat.eq_dec l ls); [reflexivity|contradiction].
Qed.

Lemma read_fields (records : list csv_record) :
  map (fun p => (player_id p, historical_event_engagements p,
                 historical_messages_sent p, days_active_last_30 p))
      (readAndProcessPlayerData records) =
  map (fun r => (rec_player_id r, rec_historical_event_engagements r,
                 rec_historical_messages_sent r, rec_days_active_last_30 r)) records.
Proof.
  rewrite readAndProcessPlayerData_store. rewrite map_map.
  set (f := fun p => (player_id p, historical_event_engagements p,
                      historical_messages_sent p, days_active_last_30 p)).
  set (L := map player_of_record records).
  transitivity (map f (map (fun l => nth l L empty_player) (seq 0 (List.length L)))).
  - unfold L. rewrite length_map, map_map. apply map_ext. intros l.
    unfold f. destruct (nth l (map player_of_record records) empty_player); reflexivity.
  - rewrite map_nth_seq_all. unfold L. rewrite map_map. apply map_ext. intros r. reflexivity.
Qed.

Lemma read_scores_bounded (records : list csv_record) :
  Forall (fun p => 0 <= engagement_score p <= 1) (readAndProcessPlayerData records).
Proof.
  rewrite readAndProcessPlayerData_store. apply Forall_forall.
  intros x Hx. apply in_map_iff in Hx. destruct Hx as (l & <- & Hl).
  rewrite engagement_score_set.
  exact (score_of_bounds (seq 0 (List.length records))
           (fun k => nth k (map player_of_record records) empty_player) l Hl).
Qed.

(** Extra: [readAndProcessPlayerData] returns one player per parsed row, in
    row order, carrying the row's id and its three metric values. *)
Theorem read_keeps_rows (records : list csv_record) :
  map (fun p => (player_id p, historical_event_engagements p,
                 historical_messages_sent p, days_active_last_30 p))
      (readAndProcessPlayerData records) =
  map (fun r => (rec_player_id r, rec_historical_event_engagements r,
                 rec_historical_messages_sent r, rec_days_active_last_30 r)) records.
Proof. exact (read_fields records). Qed.

(** Extra: every score returned by [readAndProcessPlayerData] lies in
    [[0, 1]]. *)
Theorem read_scores_in_unit_interval (records : list csv_record) :
  Forall (fun p => 0 <= engagement_score p <= 1) (readAndProcessPlayerData records).
Proof. exact (read_scores_bounded records). Qed.

(** ** The scorer does not depend on the order of its input *)

Lemma is_min_unique (a b : Q) (vs vs' : list Q) :
  is_min a vs -> is_min b vs' -> Permutation vs vs' -> a == b.
Proof.
  intros [Ha Hal] [Hb Hbl] Hp. rewrite Forall_forall in Hal, Hbl.
  apply Qle_antisym.
  - apply Hal. apply (Permutation_in _ (Permutation_sym Hp)), Hb.
  - apply Hbl. apply (Permutation_in _ Hp), Ha.
Qed.

Lemma is_max_unique (a b : Q) (vs vs' : list Q) :
  is_max a vs -> is_max b vs' -> Permutation vs vs' -> a == b.
Proof.
  intros [Ha Hal] [Hb Hbl] Hp. rewrite Forall_forall in Hal, Hbl.
  apply Qle_antisym.
  - apply Hbl. apply (Permutation_in _ Hp), Ha.
  - apply Hal. apply (Permutation_in _ (Permutation_sym Hp)), Hb.
Qed.

Lemma minmax_normalized_compat (mn mx mn' mx' v : Q) :
  mn == mn' -> mx == mx' -> minmax_normalized mn mx v == minmax_normalized mn' mx' v.
Proof.
  intros Hn Hx. unfold minmax_normalized.
  destruct (Qeq_bool mx mn) eqn:E; destruct (Qeq_bool mx' mn') eqn:E'.
  - reflexivity.
  - apply Qeq_bool_iff in E. apply Qeq_bool_neq in E'.
    exfalso. apply E'. rewrite <- Hn, <- Hx. exact E.
  - apply Qeq_bool_neq in E. apply Qeq_bool_iff in E'.
    exfalso. apply E. rewrite Hn, Hx. exact E'.
  - rewrite Hn, Hx. reflexivity.
Qed.

Lemma score_of_perm (ls ls2 : list loc) (st : store) (p : player) :
  ls <> [] -> Permutation ls ls2 ->
  score_of (build_minmax ls metrics st) p == score_of (build_minmax ls2 metrics st) p.
Proof.
  intros Hne Hp.
  destruct ls as [|l0 ls']; [contradiction|].
  destruct ls2 as [|l1 ls2']; [apply Permutation_sym, Permutation_nil in Hp; discriminate|].
  rewrite !score_of_formula.
  assert (Hm : forall m,
    minmax_normalized
      (fold_left Qmin (map (fun l => get_metric (st l) m) ls') (get_metric (st l0) m))
      (fold_left Qmax (map (fun l => get_metric (st l) m) ls') (get_metric (st l0) m))
      (get_metric p m) ==
    minmax_normalized
      (fold_left Qmin (map (fun l => get_metric (st l) m) ls2') (get_metric (st l1) m))
      (fold_left Qmax (map (fun l => get_metric (st l) m) ls2') (get_metric (st l1) m))
      (get_metric p m)).
  { intros m.
    assert (Hv : Permutation (metric_values st (l0 :: ls') m) (metric_values st (l1 :: ls2') m))
      by (apply Permutation_map, Hp).
    apply minmax_normalized_compat.
    - eapply is_min_unique; [apply fold_min_is_min|apply fold_min_is_min|exact Hv].
    - eapply is_max_unique; [apply fold_max_is_max|apply fold_max_is_max|exact Hv]. }
  simpl. rewrite (Hm "historical_event_engagements"), (Hm "historical_messages_sent"),
    (Hm "days_active_last_30"). reflexivity.
Qed.

(** Extra: the score the scorer writes for a record does not depend on the
    order of the records it is given: running it on a reordering of the
    same records writes an equal score for each of them. *)
Theorem scorer_order_independent (ls ls2 : list loc) (st : store) (l : loc) :
  Permutation ls ls2 -> In l ls ->
  engagement_score (snd (normalizeAndScore ls metrics st) l) ==
  engagement_score (snd (normalizeAndScore ls2 metrics st) l).
Proof.
  intros Hp Hin.
  assert (Hin2 : In l ls2) by (apply (Permutation_in _ Hp), Hin).
  unfold normalizeAndScore.
  destruct (score_map_result (build_minmax ls metrics st) ls st) as [_ Hs1].
  destruct (score_map_result (build_minmax ls2 metrics st) ls2 st) as [_ Hs2].
  rewrite Hs1, Hs2.
  destruct (in_dec Nat.eq_dec l ls); [|contradiction].
  destruct (in_dec Nat.eq_dec l ls2); [|contradiction].
  rewrite !engagement_score_set.
  apply score_of_perm; [destruct ls; [contradiction|discriminate]|exact Hp].
Qed.

Lemma scorer_order_independent_witness :
  Permutation [0; 1]%nat [1; 0]%nat /\ In 0%nat [0; 1]%nat /\
  engagement_score (snd (normalizeAndScore [0; 1]%nat metrics scorer_sample_store) 0%nat) ==
  engagement_score (snd (normalizeAndScore [1; 0]%nat metrics scorer_sample_store) 0%nat).
Proof.
  split; [apply perm_swap|]. split; [simpl; auto|].
  apply scorer_order_independent; [apply perm_swap|simpl; auto].
Defined.

(** ** Invariants of the snake draft *)

Lemma assign_step_Forall (P : team -> Prop) (ts : list team) (p : player) :
  (forall t, P t -> P (push_player t p)) -> Forall P ts -> Forall P (assign_step ts p).
Proof.
  intros Hpush Hts. unfold assign_step.
  assert (Hs : Forall P (sort_by_total ts))
    by (eapply Permutation_Forall; [apply Permutation_sym, sort_by_total_perm|exact Hts]).
  destruct (sort_by_total ts) as [|t rest]; [constructor|].
  inversion Hs; subst. constructor; auto.
Qed.

Lemma assign_all_Forall (P : team -> Prop) (ts : list team) (qs : list player) :
  (forall t p, In p qs -> P t -> P (push_player t p)) -> Forall P ts -> Forall P (assign_all ts qs).
Proof.
  unfold assign_all. revert ts.
  induction qs as [|q qs IH]; intros ts Hpush Hts; simpl; [exact Hts|].
  apply IH; [intros t p Hp; apply Hpush; right; exact Hp|].
  apply assign_step_Forall; [|exact Hts]. intros t. apply Hpush. left. reflexivity.
Qed.

Lemma run_trial_Forall {G : Type} (seedrandom : string -> G) (rng : G -> unit_draw * G)
    (P : team -> Prop) (ps : list player) (numTeams : Z) (seed : string) (i : nat) :
  (forall t p, In p ps -> P t -> P (push_player t p)) ->
  Forall P (init_teams numTeams) ->
  Forall P (run_trial seedrandom rng ps numTeams seed i).
Proof.
  intros Hpush Hinit. unfold run_trial, shuffle.
  apply assign_all_Forall; [|exact Hinit].
  intros t p Hp. apply Hpush.
  exact (Permutation_in p
           (shuffle_loop_perm rng (List.length ps) ps (seedrandom (trialSeed seed i))) Hp).
Qed.

Lemma init_teams_Forall (P : team -> Prop) (numTeams : Z) :
  (forall n, P (mkTeam (S n) [] 0)) -> Forall P (init_teams numTeams).
Proof.
  intros H. unfold init_teams. apply Forall_forall.
  intros t Ht. apply in_map_iff in Ht. destruct Ht as (n & <- & _). apply H.
Qed.

Lemma fold_right_Qplus_acc (xs : list Q) (a : Q) :
  fold_right Qplus a xs == fold_right Qplus 0 xs + a.
Proof.
  induction xs as [|x xs IH]; simpl; [ring|]. rewrite IH. ring.
Qed.

Lemma team_sum_push (t : team) (p : player) :
  team_sum (push_player t p) == team_sum t + engagement_score p.
Proof.
  unfold team_sum, push_player. simpl.
  rewrite map_app, fold_right_app. simpl.
  rewrite fold_right_Qplus_acc. ring.
Qed.

Lemma totals_invariant {G : Type} (seedrandom : string -> G) (rng : G -> unit_draw * G)
    (ps : list player) (numTeams : Z) (seed : string) (i : nat) :
  Forall (fun t => total_engagement_score t == team_sum t)
    (run_trial seedrandom rng ps numTeams seed i).
Proof.
  apply run_trial_Forall.
  - intros t p _ Ht. rewrite team_sum_push. simpl. rewrite Ht. reflexivity.
  - apply init_teams_Forall. intros n. reflexivity.
Qed.

(** Extra: in every trial's partition and in the chosen one, each team's
    running total equals the sum of its players' scores. *)
Theorem team_totals_are_sums {G : Type} (seedrandom : string -> G) (rng : G -> unit_draw * G)
    (ps : list player) (numTeams : Z) (seed : string) :
  (forall i, Forall (fun t => total_engagement_score t == team_sum t)
               (run_trial seedrandom rng ps numTeams seed i)) /\
  Forall (fun t => total_engagement_score t == team_sum t)
    (bestAssignment (run_trials seedrandom rng ps numTeams seed)).
Proof.
  split; [apply totals_invariant|].
  destruct (run_trials_best_is_trial G seedrandom rng ps numTeams seed) as (k & _ & ->).
  apply totals_invariant.
Qed.

Lemma sum_scores_bounds (l : list player) :
  Forall (fun p => 0 <= engagement_score p <= 1) l ->
  0 <= fold_right Qplus 0 (map engagement_score l) <= inject_Z (Z.of_nat (List.length l)).
Proof.
  induction l as [|p l IH]; intros H; cbn [fold_right map List.length];
    [split; apply Qle_refl|].
  inversion H as [|? ? Hp Hl]; subst. destruct (IH Hl) as [Hlo Hhi].
  rewrite Nat2Z.inj_succ, <- Z.add_1_r, inject_Z_plus.
  change (inject_Z 1) with 1.
  destruct Hp. split; lra.
Qed.

Lemma team_avg_bounds (t : team) :
  total_engagement_score t == team_sum t ->
  Forall (fun p => 0 <= engagement_score p <= 1) (players t) ->
  0 <= team_avg t <= 1.
Proof.
  intros Htot Hps. unfold team_avg. unfold team_sum in Htot.
  destruct (sum_scores_bounds _ Hps) as [Hlo Hhi].
  destruct (players t) as [|p l] eqn:E.
  - simpl in Htot |- *. rewrite Htot. split; discriminate.
  - set (k := inject_Z (Z.of_nat (List.length (p :: l)))) in *.
    assert (Hk : 0 < k).
    { unfold k. change 0 with (inject_Z 0). rewrite <- Zlt_Qlt. simpl. lia. }
    rewrite Htot. split.
    + apply Qle_shift_div_l; [exact Hk|]. rewrite Qmult_0_l. exact Hlo.
    + apply Qle_shift_div_r; [exact Hk|]. rewrite Qmult_1_l. exact Hhi.
Qed.

(** Extra: whatever the rows, for a team count below [2^32] the run
    succeeds on parsed rows and every average printed in the team summary
    lies in [[0, 1]]. *)
Theorem report_averages_in_unit_interval {G : Type} (seedrandom : string -> G)
    (rng : G -> unit_draw * G) (records : list csv_record) (numTeams : Z) (seed : string) :
  (numTeams < 4294967296)%Z ->
  exists r, main_run seedrandom rng (ReadOk records) numTeams seed = RunOk r /\
    Forall (fun line => 0 <= snd line <= 1) (team_summary r).
Proof.
  intros HB. set (ps := readAndProcessPlayerData records).
  exists (make_report (bestAssignment (run_trials seedrandom rng ps numTeams seed))).
  split; [apply main_run_ok, HB|].
  destruct (run_trials_best_is_trial G seedrandom rng ps numTeams seed) as (k & _ & Hk).
  unfold make_report. cbn [team_summary assignment_lines]. rewrite Hk.
  assert (Hall : Forall (fun t => total_engagement_score t == team_sum t /\
                           Forall (fun p => 0 <= engagement_score p <= 1) (players t))
                   (run_trial seedrandom rng ps numTeams seed k)).
  { apply run_trial_Forall.
    - intros t p Hp [Ht Hpl]. split.
      + rewrite team_sum_push. simpl. rewrite Ht. reflexivity.
      + simpl. apply Forall_app. split; [exact Hpl|].
        constructor; [|constructor].
        pose proof (read_scores_bounded records) as Hb. rewrite Forall_forall in Hb.
        apply Hb, Hp.
    - apply init_teams_Forall. intros n. split; [reflexivity|constructor]. }
  apply Forall_map.
  eapply Permutation_Forall; [apply Permutation_sym, sort_by_id_perm|].
  eapply Forall_impl; [|exact Hall].
  intros t [Ht Hpl]. apply team_avg_bounds; assumption.
Qed.

Lemma report_averages_in_unit_interval_witness :
  (2 < 4294967296)%Z /\
  exists r, main_run sample_seedrandom sample_rng
              (ReadOk [mkRecord "a" 1 2 3; mkRecord "b" 4 5 6; mkRecord "c" 0 9 1]) 2 "6"
            = RunOk r /\
    Forall (fun line => 0 <= snd line <= 1) (team_summary r).
Proof.
  split; [lia|]. apply report_averages_in_unit_interval. lia.
Defined.

Lemma assign_step_balance (M : Q) (ts : list team) (p : player) :
  0 <= M -> 0 <= engagement_score p <= M ->
  (forall u v, In u ts -> In v ts -> total_engagement_score u <= total_engagement_score v + M) ->
  forall u v, In u (assign_step ts p) -> In v (assign_step ts p) ->
    total_engagement_score u <= total_engagement_score v + M.
Proof.
  intros HM [Hs0 HsM] Hbal.
  destruct ts as [|t0 ts0]; [unfold assign_step; simpl; intros u v []|].
  destruct (assign_step_spec (t0 :: ts0) p) as (pre & target & post & Heq & Hmin & _ & Hstep);
    [discriminate|].
  rewrite Hstep.
  assert (Hold : forall u, In u (sort_by_total (pre ++ post)) -> In u (t0 :: ts0)).
  { intros u Hu. rewrite Heq.
    apply (Permutation_in _ (sort_by_total_perm _)) in Hu.
    apply in_app_or in Hu. apply in_or_app. simpl. tauto. }
  assert (Htin : In target (t0 :: ts0)) by (rewrite Heq; apply in_or_app; simpl; auto).
  intros u v [<-|Hu] [<-|Hv]; simpl.
  - lra.
  - specialize (Hmin v (Hold v Hv)). lra.
  - specialize (Hbal u target (Hold u Hu) Htin). lra.
  - apply Hbal; auto.
Qed.

Lemma balance_invariant {G : Type} (seedrandom : string -> G) (rng : G -> unit_draw * G)
    (M : Q) (ps : list player) (numTeams : Z) (seed : string) (i : nat) :
  0 <= M -> Forall (fun p => 0 <= engagement_score p <= M) ps ->
  forall u v, In u (run_trial seedrandom rng ps numTeams seed i) ->
    In v (run_trial seedrandom rng ps numTeams seed i) ->
    total_engagement_score u <= total_engagement_score v + M.
Proof.
  intros HM Hps. unfold run_trial, shuffle.
  set (qs := fst (shuffle_loop rng (List.length ps) ps (seedrandom (trialSeed seed i)))).
  assert (Hqs : Forall (fun p => 0 <= engagement_score p <= M) qs).
  { eapply Permutation_Forall; [apply Permutation_sym, (shuffle_loop_perm rng)|exact Hps]. }
  assert (Hinit : forall u v, In u (init_teams numTeams) -> In v (init_teams numTeams) ->
            total_engagement_score u <= total_engagement_score v + M).
  { intros u v Hu Hv. unfold init_teams in Hu, Hv.
    apply in_map_iff in Hu, Hv.
    destruct Hu as (a & <- & _). destruct Hv as (b & <- & _). simpl. lra. }
  clearbody qs. unfold assign_all. revert Hinit. generalize (init_teams numTeams).
  induction Hqs as [|q qs Hq Hqs IH]; intros ts Hts; simpl; [exact Hts|].
  apply IH. apply assign_step_balance; assumption.
Qed.

(** Extra: if every player's score lies in [[0, M]], then in every trial's
    partition and in the chosen one, no team's total exceeds another's by
    more than [M]. *)
Theorem greedy_balance_bound {G : Type} (seedrandom : string -> G) (rng : G -> unit_draw * G)
    (M : Q) (ps : list player) (numTeams : Z) (seed : string) :
  0 <= M -> Forall (fun p => 0 <= engagement_score p <= M) ps ->
  (forall i u v, In u (run_trial seedrandom rng ps numTeams seed i) ->
     In v (run_trial seedrandom rng ps numTeams seed i) ->
     total_engagement_score u <= total_engagement_score v + M) /\
  (forall u v, In u (bestAssignment (run_trials seedrandom rng ps numTeams seed)) ->
     In v (bestAssignment (run_trials seedrandom rng ps numTeams seed)) ->
     total_engagement_score u <= total_engagement_score v + M).
Proof.
  intros HM Hps. split.
  - intros i. apply balance_invariant; assumption.
  - destruct (run_trials_best_is_trial G seedrandom rng ps numTeams seed) as (k & _ & ->).
    apply balance_invariant; assumption.
Qed.

Lemma greedy_balance_bound_witness :
  let ps := [mkPlayer "a" 0 0 0 1; mkPlayer "b" 0 0 0 (1 # 2); mkPlayer "c" 0 0 0 (1 # 4)] in
  0 <= 1 /\ Forall (fun p => 0 <= engagement_score p <= 1) ps /\
  (forall i u v, In u (run_trial sample_seedrandom sample_rng ps 2 "7" i) ->
     In v (run_trial sample_seedrandom sample_rng ps 2 "7" i) ->
     total_engagement_score u <= total_engagement_score v + 1) /\
  (forall u v, In u (bestAssignment (run_trials sample_seedrandom sample_rng ps 2 "7")) ->
     In v (bestAssignment (run_trials sample_seedrandom sample_rng ps 2 "7")) ->
     total_engagement_score u <= total_engagement_score v + 1).
Proof.
  intros ps.
  assert (Hps : Forall (fun p => 0 <= engagement_score p <= 1) ps)
    by (repeat constructor; discriminate).
  split; [discriminate|]. split; [exact Hps|].
  apply greedy_balance_bound; [discriminate|exact Hps].
Defined.

(** ** Team ids and the report *)

Lemma assign_step_ids (ts : list team) (p : player) :
  Permutation (map id (assign_step ts p)) (map id ts).
Proof.
  unfold assign_step.
  pose proof (Permutation_map id (sort_by_total_perm ts)) as Hp.
  destruct (sort_by_total ts) as [|t rest]; [exact Hp|exact Hp].
Qed.

Lemma assign_all_ids (ts : list team) (qs : list player) :
  Permutation (map id (assign_all ts qs)) (map id ts).
Proof.
  unfold assign_all. revert ts.
  induction qs as [|q qs IH]; intros ts; simpl; [reflexivity|].
  rewrite IH. apply assign_step_ids.
Qed.

Lemma run_trial_ids {G : Type} (seedrandom : string -> G) (rng : G -> unit_draw * G)
    (ps : list player) (numTeams : Z) (seed : string) (i : nat) :
  Permutation (map id (run_trial seedrandom rng ps numTeams seed i)) (seq 1 (Z.to_nat numTeams)).
Proof.
  unfold run_trial. rewrite assign_all_ids.
  unfold init_teams. rewrite map_map. simpl. rewrite <- seq_shift. reflexivity.
Qed.

Lemma insert_by_id_sorted (t : team) (ts : list team) :
  Sorted (fun a b => (id a <= id b)%nat) ts ->
  Sorted (fun a b => (id a <= id b)%nat) (insert_by_id t ts).
Proof.
  induction ts as [|u ts IH]; intros H; simpl; [repeat constructor|].
  destruct (Nat.leb_spec (id t) (id u)) as [Hle|Hlt].
  - constructor; [exact H|constructor; exact Hle].
  - apply Sorted_inv in H. destruct H as [Hs Hhd].
    constructor; [apply IH, Hs|].
    destruct ts as [|w ts]; simpl; [constructor; lia|].
    inversion Hhd; subst.
    destruct (Nat.leb (id t) (id w)); constructor; lia.
Qed.

Lemma sort_by_id_sorted (ts : list team) :
  Sorted (fun a b => (id a <= id b)%nat) (sort_by_id ts).
Proof.
  induction ts as [|t ts IH]; simpl; [constructor|]. apply insert_by_id_sorted, IH.
Qed.

Lemma sorted_map_id (ts : list team) :
  Sorted (fun a b => (id a <= id b)%nat) ts -> Sorted le (map id ts).
Proof.
  induction 1 as [|a l Hs IH Hhd]; simpl; constructor; [exact IH|].
  destruct Hhd; simpl; constructor; assumption.
Qed.

Lemma seq_sorted (a n : nat) : Sorted le (seq a n).
Proof.
  revert a. induction n as [|n IH]; intros a; simpl; constructor; [apply IH|].
  destruct n; simpl; constructor; lia.
Qed.

Lemma sorted_perm_eq (l1 l2 : list nat) :
  StronglySorted le l1 -> StronglySorted le l2 -> Permutation l1 l2 -> l1 = l2.
Proof.
  revert l2. induction l1 as [|x l1 IH]; intros l2 H1 H2 Hp.
  - symmetry. apply Permutation_nil, Hp.
  - destruct l2 as [|y l2]; [apply Permutation_sym, Permutation_nil in Hp; discriminate|].
    apply StronglySorted_inv in H1. destruct H1 as [H1 F1].
    apply StronglySorted_inv in H2. destruct H2 as [H2 F2].
    assert (Hx : In x (y :: l2)) by (apply (Permutation_in _ Hp); left; reflexivity).
    assert (Hy : In y (x :: l1))
      by (apply (Permutation_in _ (Permutation_sym Hp)); left; reflexivity).
    rewrite Forall_forall in F1, F2.
    assert (Exy : x = y).
    { destruct Hx as [Hx|Hx]; [auto|]. destruct Hy as [Hy|Hy]; [auto|].
      specialize (F1 y Hy). specialize (F2 x Hx). lia. }
    subst y. f_equal. apply IH; auto. apply Permutation_cons_inv in Hp. exact Hp.
Qed.

Lemma sort_by_id_ids {G : Type} (seedrandom : string -> G) (rng : G -> unit_draw * G)
    (ps : list player) (numTeams : Z) (seed : string) (i : nat) :
  map id (sort_by_id (run_trial seedrandom rng ps numTeams seed i)) = seq 1 (Z.to_nat numTeams).
Proof.
  apply sorted_perm_eq.
  - apply Sorted_StronglySorted; [intros a b c; lia|].
    apply sorted_map_id, sort_by_id_sorted.
  - apply Sorted_StronglySorted; [intros a b c; lia|]. apply seq_sorted.
  - rewrite (Permutation_map id (sort_by_id_perm _)). apply run_trial_ids.
Qed.

(** Extra: for a team count [N] below [2^32], the run on parsed rows
    succeeds, and its team summary lists the teams [1], [2], ..., [N] in
    this order, each once ([N] clamped at [0]). *)
Theorem summary_lists_teams_in_order {G : Type} (seedrandom : string -> G)
    (rng : G -> unit_draw * G) (records : list csv_record) (numTeams : Z) (seed : string) :
  (numTeams < 4294967296)%Z ->
  exists r, main_run seedrandom rng (ReadOk records) numTeams seed = RunOk r /\
    map (fun line => fst (fst line)) (team_summary r) = seq 1 (Z.to_nat numTeams).
Proof.
  intros HB. set (ps := readAndProcessPlayerData records).
  exists (make_report (bestAssignment (run_trials seedrandom rng ps numTeams seed))).
  split; [apply main_run_ok, HB|].
  destruct (run_trials_best_is_trial G seedrandom rng ps numTeams seed) as (k & _ & Hk).
  unfold make_report. cbn [team_summary assignment_lines]. rewrite Hk, map_map. cbn [fst snd].
  apply sort_by_id_ids.
Qed.

Lemma summary_lists_teams_in_order_witness :
  (3 < 4294967296)%Z /\
  exists r, main_run sample_seedrandom sample_rng
              (ReadOk [mkRecord "a" 1 2 3; mkRecord "b" 4 5 6]) 3 "2" = RunOk r /\
    map (fun line => fst (fst line)) (team_summary r) = seq 1 (Z.to_nat 3).
Proof.
  split; [lia|]. apply summary_lists_teams_in_order. lia.
Defined.

Lemma assignment_lines_ids (ts : list team) :
  map fst (flat_map (fun t => map (fun p => (player_id p, id t)) (players t)) ts) =
  map player_id (members ts).
Proof.
  unfold members. induction ts as [|t ts IH]; simpl; [reflexivity|].
  rewrite !map_app, IH, !map_map. reflexivity.
Qed.

Lemma members_length (ts : list team) :
  List.length (members ts) = fold_right Nat.add 0%nat (map (fun t => List.length (players t)) ts).
Proof.
  unfold members. induction ts as [|t ts IH]; simpl; [reflexivity|].
  rewrite length_app, IH. reflexivity.
Qed.

(** Extra: with [1 <= N < 2^32] teams, the run on parsed rows prints one
    assignment line per row: the ids on these lines are the rows' ids, each
    as often as in the input, and each line names a team between [1] and
    [N]. *)
Theorem report_lines_cover_rows {G : Type} (seedrandom : string -> G)
    (rng : G -> unit_draw * G) (records : list csv_record) (numTeams : Z) (seed : string) :
  (1 <= numTeams)%Z ->
  (numTeams < 4294967296)%Z ->
  exists r, main_run seedrandom rng (ReadOk records) numTeams seed = RunOk r /\
    Permutation (map fst (assignment_lines r)) (map rec_player_id records) /\
    Forall (fun line => (1 <= snd line <= Z.to_nat numTeams)%nat) (assignment_lines r).
Proof.
  intros HN HB. eexists. split; [apply main_run_ok, HB|].
  set (ps := readAndProcessPlayerData records).
  destruct (run_trials_best_is_trial G seedrandom rng ps numTeams seed) as (k & _ & Hk).
  unfold make_report. cbn [team_summary assignment_lines]. rewrite Hk.
  split.
  - rewrite assignment_lines_ids.
    rewrite (Permutation_map player_id (members_perm _ _ (sort_by_id_perm _))).
    rewrite (Permutation_map player_id (run_trial_members seedrandom rng ps numTeams seed k HN)).
    assert (E : map player_id ps = map rec_player_id records).
    { pose proof (f_equal (map (fun x => fst (fst (fst x)))) (read_fields records)) as E.
      rewrite !map_map in E. exact E. }
    rewrite E. reflexivity.
  - apply Forall_forall. intros line Hl.
    apply in_flat_map in Hl. destruct Hl as (t & Ht & Hl).
    apply in_map_iff in Hl. destruct Hl as (p & <- & _). simpl.
    assert (Hid : In (id t) (seq 1 (Z.to_nat numTeams))).
    { rewrite <- (sort_by_id_ids seedrandom rng ps numTeams seed k). apply in_map, Ht. }
    apply in_seq in Hid. lia.
Qed.

Lemma report_lines_cover_rows_witness :
  (1 <= 2)%Z /\ (2 < 4294967296)%Z /\
  exists r, main_run sample_seedrandom sample_rng
              (ReadOk [mkRecord "a" 1 2 3; mkRecord "b" 4 5 6; mkRecord "c" 0 9 1]) 2 "3"
            = RunOk r /\
    Permutation (map fst (assignment_lines r))
      (map rec_player_id [mkRecord "a" 1 2 3; mkRecord "b" 4 5 6; mkRecord "c" 0 9 1]) /\
    Forall (fun line => (1 <= snd line <= Z.to_nat 2)%nat) (assignment_lines r).
Proof.
  split; [lia|]. split; [lia|]. apply report_lines_cover_rows; lia.
Defined.

(** Extra: with [1 <= N < 2^32] teams, the sizes printed in the team summary add
    up to the number of parsed rows. *)
Theorem summary_sizes_add_up {G : Type} (seedrandom : string -> G)
    (rng : G -> unit_draw * G) (records : list csv_record) (numTeams : Z) (seed : string) :
  (1 <= numTeams)%Z ->
  (numTeams < 4294967296)%Z ->
  exists r, main_run seedrandom rng (ReadOk records) numTeams seed = RunOk r /\
    fold_right Nat.add 0%nat (map (fun line => snd (fst line)) (team_summary r)) =
    List.length records.
Proof.
  intros HN HB. eexists. split; [apply main_run_ok, HB|].
  set (ps := readAndProcessPlayerData records).
  destruct (run_trials_best_is_trial G seedrandom rng ps numTeams seed) as (k & _ & Hk).
  unfold make_report. cbn [team_summary assignment_lines]. rewrite Hk, map_map. cbn [fst snd].
  rewrite <- members_length.
  rewrite (Permutation_length (members_perm _ _ (sort_by_id_perm _))).
  rewrite (Permutation_length (run_trial_members seedrandom rng ps numTeams seed k HN)).
  pose proof (f_equal (@List.length _) (read_fields records)) as E.
  rewrite !length_map in E. exact E.
Qed.

Lemma summary_sizes_add_up_witness :
  (1 <= 3)%Z /\ (3 < 4294967296)%Z /\
  exists r, main_run sample_seedrandom sample_rng
              (ReadOk [mkRecord "a" 1 2 3; mkRecord "b" 4 5 6]) 3 "11" = RunOk r /\
    fold_right Nat.add 0%nat (map (fun line => snd (fst line)) (team_summary r)) =
    List.length [mkRecord "a" 1 2 3; mkRecord "b" 4 5 6].
Proof.
  split; [lia|]. split; [lia|]. apply summary_sizes_add_up; lia.
Defined.

(** ** A single team, and players of score zero *)

Lemma sd_singleton (x : Q) : calculateStandardDeviation [x] = 0%R.
Proof.
  unfold calculateStandardDeviation. cbn [List.length Nat.eqb fold_left]. cbv zeta.
  change (inject_Z (Z.of_nat 1)) with 1.
  rewrite (Qeq_eqR _ 0).
  - rewrite Q2R_zero. apply sqrt_0.
  - unfold Qpower, Qpower_positive, pow_pos. field.
Qed.

(** Extra: with a single team, every trial puts all players in team [1]
    and has dispersion [0], so the first trial is kept: the best trial index
    is [1], the lowest dispersion [0], and the chosen partition is one team
    of id [1] holding exactly the input players. *)
Theorem one_team_takes_all {G : Type} (seedrandom : string -> G) (rng : G -> unit_draw * G)
    (ps : list player) (seed : string) :
  (forall i, trial_stddev (run_trial seedrandom rng ps 1 seed i) = 0%R /\
     exists t, run_trial seedrandom rng ps 1 seed i = [t] /\ id t = 1%nat /\
       Permutation (players t) ps) /\
  let b := run_trials seedrandom rng ps 1 seed in
  bestTrialIndex b = 1%Z /\ lowestStdDev b = Some 0%R /\
  exists t, bestAssignment b = [t] /\ id t = 1%nat /\ Permutation (players t) ps.
Proof.
  assert (Hshape : forall i, exists t, run_trial seedrandom rng ps 1 seed i = [t] /\
                     id t = 1%nat /\ Permutation (players t) ps).
  { intros i.
    pose proof (run_trial_ids seedrandom rng ps 1 seed i) as Hid.
    pose proof (run_trial_members seedrandom rng ps 1 seed i ltac:(lia)) as Hm.
    destruct (run_trial seedrandom rng ps 1 seed i) as [|t [|u rest]].
    - apply Permutation_length in Hid. discriminate.
    - exists t. cbn in Hid. apply Permutation_length_1 in Hid.
      split; [reflexivity|]. split; [exact Hid|].
      unfold members in Hm. cbn [map List.concat] in Hm. rewrite app_nil_r in Hm. exact Hm.
    - apply Permutation_length in Hid. discriminate. }
  assert (Hsd : forall i, trial_stddev (run_trial seedrandom rng ps 1 seed i) = 0%R).
  { intros i. destruct (Hshape i) as (t & -> & _).
    unfold trial_stddev. cbn [map]. apply sd_singleton. }
  split; [intros i; split; [apply Hsd|apply Hshape]|].
  intros b.
  destruct (run_trials_selects G seedrandom rng ps 1 seed) as (k & Hk & Hb & _ & Hfirst).
  destruct k as [|k].
  2: { specialize (Hfirst O ltac:(lia)). rewrite !Hsd in Hfirst.
       exfalso. exact (Rlt_irrefl _ Hfirst). }
  unfold b. rewrite Hb. cbn [bestTrialIndex lowestStdDev bestAssignment].
  split; [reflexivity|]. split; [rewrite Hsd; reflexivity|]. apply Hshape.
Qed.

Lemma sort_by_total_all_zero (ts : list team) :
  (forall u, In u ts -> total_engagement_score u == 0) -> sort_by_total ts = ts.
Proof.
  induction ts as [|t ts IH]; intros H; simpl; [reflexivity|].
  rewrite IH by (intros u Hu; apply H; right; exact Hu).
  apply insert_by_total_front. intros u Hu.
  rewrite (H t (or_introl eq_refl)), (H u (or_intror Hu)). apply Qle_refl.
Qed.

Lemma init_teams_head (numTeams : Z) :
  (1 <= numTeams)%Z -> init_teams numTeams = mkTeam 1 [] 0 :: tl (init_teams numTeams).
Proof.
  intros HN. unfold init_teams.
  destruct (Z.to_nat numTeams) eqn:E; [lia|reflexivity].
Qed.

Lemma init_teams_tail (numTeams : Z) :
  Forall (fun u => total_engagement_score u == 0 /\ players u = []) (tl (init_teams numTeams)).
Proof.
  assert (H : Forall (fun u => total_engagement_score u == 0 /\ players u = [])
                (init_teams numTeams))
    by (apply init_teams_Forall; intros n; split; reflexivity).
  destruct (init_teams numTeams); [constructor|]. inversion H; assumption.
Qed.

(** Extra: with [N >= 1] fresh teams, the first player drafted always goes
    to team [1]: all totals are [0], and the stable sort keeps team [1] in
    front and the other teams in id order. *)
Theorem first_player_to_team_one (numTeams : Z) (p : player) :
  (1 <= numTeams)%Z ->
  assign_all (init_teams numTeams) [p] = push_player (mkTeam 1 [] 0) p :: tl (init_teams numTeams).
Proof.
  intros HN. pose proof (init_teams_head numTeams HN) as E.
  pose proof (init_teams_tail numTeams) as Ht.
  set (rest := tl (init_teams numTeams)) in *. rewrite E.
  unfold assign_all. cbn [fold_left]. unfold assign_step.
  rewrite sort_by_total_all_zero; [reflexivity|].
  intros u [<-|Hu]; [reflexivity|].
  rewrite Forall_forall in Ht. apply Ht, Hu.
Qed.

Lemma first_player_to_team_one_witness :
  (1 <= 3)%Z /\
  assign_all (init_teams 3) [mkPlayer "a" 1 1 1 (1 # 3)] =
    push_player (mkTeam 1 [] 0) (mkPlayer "a" 1 1 1 (1 # 3)) :: tl (init_teams 3).
Proof.
  split; [lia|]. apply first_player_to_team_one. lia.
Defined.

Lemma assign_all_zero_scores (acc : list player) (tot : Q) (rest : list team)
    (qs : list player) :
  tot == 0 -> (forall u, In u rest -> total_engagement_score u == 0) ->
  Forall (fun p => engagement_score p == 0) qs ->
  exists tot', tot' == 0 /\
    assign_all (mkTeam 1 acc tot :: rest) qs = mkTeam 1 (acc ++ qs) tot' :: rest.
Proof.
  revert acc tot. induction qs as [|q qs IH]; intros acc tot Htot Hrest Hqs.
  - exists tot. split; [exact Htot|]. rewrite app_nil_r. reflexivity.
  - inversion Hqs as [|? ? Hq Hqs']; subst.
    assert (Hstep : assign_step (mkTeam 1 acc tot :: rest) q =
                    mkTeam 1 (acc ++ [q]) (tot + engagement_score q) :: rest).
    { unfold assign_step. rewrite sort_by_total_all_zero; [reflexivity|].
      intros u [<-|Hu]; [exact Htot|apply Hrest, Hu]. }
    destruct (IH (acc ++ [q]) (tot + engagement_score q)) as (tot' & H1 & H2);
      [rewrite Htot, Hq; reflexivity|exact Hrest|exact Hqs'|].
    exists tot'. split; [exact H1|].
    unfold assign_all in *. cbn [fold_left]. rewrite Hstep, H2, <- app_assoc. reflexivity.
Qed.

Lemma zero_scores_trial {G : Type} (seedrandom : string -> G) (rng : G -> unit_draw * G)
    (ps : list player) (numTeams : Z) (seed : string) (i : nat) :
  (1 <= numTeams)%Z -> Forall (fun p => engagement_score p == 0) ps ->
  exists t rest, run_trial seedrandom rng ps numTeams seed i = t :: rest /\
    id t = 1%nat /\ Permutation (players t) ps /\ Forall (fun u => players u = []) rest.
Proof.
  intros HN Hps. unfold run_trial, shuffle.
  pose proof (shuffle_loop_perm rng (List.length ps) ps (seedrandom (trialSeed seed i))) as Hp.
  set (qs := fst (shuffle_loop rng (List.length ps) ps (seedrandom (trialSeed seed i)))) in *.
  assert (Hqs : Forall (fun p => engagement_score p == 0) qs)
    by (eapply Permutation_Forall; [apply Permutation_sym, Hp|exact Hps]).
  pose proof (init_teams_tail numTeams) as Ht. rewrite Forall_forall in Ht.
  rewrite (init_teams_head numTeams HN).
  destruct (assign_all_zero_scores [] 0 (tl (init_teams numTeams)) qs) as (tot & _ & E);
    [reflexivity|intros u Hu; apply Ht, Hu|exact Hqs|].
  rewrite E. eexists _, _. split; [reflexivity|]. split; [reflexivity|].
  split; [exact Hp|]. apply Forall_forall. intros u Hu. apply Ht, Hu.
Qed.

(** Extra: with [N >= 1] teams, if every player's score is [0], every
    trial's partition and the chosen one put all the players in team [1]
    and leave every other team empty. *)
Theorem zero_scores_single_team {G : Type} (seedrandom : string -> G)
    (rng : G -> unit_draw * G) (ps : list player) (numTeams : Z) (seed : string) :
  (1 <= numTeams)%Z -> Forall (fun p => engagement_score p == 0) ps ->
  (forall i, exists t rest, run_trial seedrandom rng ps numTeams seed i = t :: rest /\
     id t = 1%nat /\ Permutation (players t) ps /\ Forall (fun u => players u = []) rest) /\
  (exists t rest, bestAssignment (run_trials seedrandom rng ps numTeams seed) = t :: rest /\
     id t = 1%nat /\ Permutation (players t) ps /\ Forall (fun u => players u = []) rest).
Proof.
  intros HN Hps. split.
  - intros i. apply zero_scores_trial; assumption.
  - destruct (run_trials_best_is_trial G seedrandom rng ps numTeams seed) as (k & _ & ->).
    apply zero_scores_trial; assumption.
Qed.

Lemma zero_scores_single_team_witness :
  let ps := [mkPlayer "a" 2 2 2 0; mkPlayer "b" 2 2 2 0; mkPlayer "c" 2 2 2 0] in
  (1 <= 2)%Z /\ Forall (fun p => engagement_score p == 0) ps /\
  (forall i, exists t rest, run_trial sample_seedrandom sample_rng ps 2 "1" i = t :: rest /\
     id t = 1%nat /\ Permutation (players t) ps /\ Forall (fun u => players u = []) rest) /\
  (exists t rest, bestAssignment (run_trials sample_seedrandom sample_rng ps 2 "1") = t :: rest /\
     id t = 1%nat /\ Permutation (players t) ps /\ Forall (fun u => players u = []) rest).
Proof.
  intros ps.
  assert (Hps : Forall (fun p => engagement_score p == 0) ps) by (repeat constructor).
  split; [lia|]. split; [exact Hps|].
  apply zero_scores_single_team; [lia|exact Hps].
Defined.

Lemma minmax_normalized_flat (mn mx v : Q) : mx == mn -> minmax_normalized mn mx v = 0.
Proof.
  intros H. unfold minmax_normalized. rewrite (proj2 (Qeq_bool_iff mx mn) H). reflexivity.
Qed.

Lemma sum_zero (f : string -> Q) (ms : list string) :
  (forall m, In m ms -> f m == 0) -> fold_right Qplus 0 (map f ms) == 0.
Proof.
  induction ms as [|m ms IH]; intros H; simpl; [reflexivity|].
  rewrite (H m (or_introl eq_refl)), IH by (intros; apply H; right; assumption).
  reflexivity.
Qed.

Lemma score_of_flat (ls : list loc) (st : store) (p : player) :
  ls <> [] ->
  (forall m, In m metrics -> forall l1 l2, In l1 ls -> In l2 ls ->
     get_metric (st l1) m == get_metric (st l2) m) ->
  score_of (build_minmax ls metrics st) p == 0.
Proof.
  intros Hne Hflat. destruct ls as [|l0 ls']; [contradiction|].
  rewrite score_of_formula, sum_zero; [reflexivity|].
  intros m Hm.
  destruct (fold_min_is_min (map (fun l => get_metric (st l) m) ls') (get_metric (st l0) m))
    as [Hmin _].
  destruct (fold_max_is_max (map (fun l => get_metric (st l) m) ls') (get_metric (st l0) m))
    as [Hmax _].
  change (get_metric (st l0) m :: map (fun l => get_metric (st l) m) ls') with
    (map (fun l => get_metric (st l) m) (l0 :: ls')) in Hmin, Hmax.
  apply in_map_iff in Hmin. destruct Hmin as (l1 & E1 & H1).
  apply in_map_iff in Hmax. destruct Hmax as (l2 & E2 & H2).
  rewrite minmax_normalized_flat; [reflexivity|].
  rewrite <- E1, <- E2. apply Hflat; assumption.
Qed.

Lemma read_scores_zero (records : list csv_record) :
  (forall r1 r2, In r1 records -> In r2 records ->
     rec_historical_event_engagements r1 == rec_historical_event_engagements r2 /\
     rec_historical_messages_sent r1 == rec_historical_messages_sent r2 /\
     rec_days_active_last_30 r1 == rec_days_active_last_30 r2) ->
  Forall (fun p => engagement_score p == 0) (readAndProcessPlayerData records).
Proof.
  intros Hrec. rewrite readAndProcessPlayerData_store. apply Forall_forall.
  intros x Hx. apply in_map_iff in Hx. destruct Hx as (l & <- & Hl).
  rewrite engagement_score_set.
  apply score_of_flat; [destruct (seq 0 (List.length records)); [contradiction|discriminate]|].
  intros m Hm l1 l2 H1 H2.
  apply in_seq in H1. apply in_seq in H2.
  change empty_player with (player_of_record (mkRecord "" 0 0 0)).
  rewrite !map_nth.
  assert (Hr1 : In (nth l1 records (mkRecord "" 0 0 0)) records) by (apply nth_In; lia).
  assert (Hr2 : In (nth l2 records (mkRecord "" 0 0 0)) records) by (apply nth_In; lia).
  destruct (Hrec _ _ Hr1 Hr2) as (Ea & Eb & Ec).
  destruct Hm as [<-|[<-|[<-|[]]]]; assumption.
Qed.

(** Extra: with [1 <= N < 2^32] teams, if every parsed row carries the same value
    of each of the three metrics, every player scores [0], and every line
    of the final assignment names team [1]. *)
Theorem identical_rows_all_in_team_one {G : Type} (seedrandom : string -> G)
    (rng : G -> unit_draw * G) (records : list csv_record) (numTeams : Z) (seed : string) :
  (1 <= numTeams)%Z ->
  (numTeams < 4294967296)%Z ->
  (forall r1 r2, In r1 records -> In r2 records ->
     rec_historical_event_engagements r1 == rec_historical_event_engagements r2 /\
     rec_historical_messages_sent r1 == rec_historical_messages_sent r2 /\
     rec_days_active_last_30 r1 == rec_days_active_last_30 r2) ->
  Forall (fun p => engagement_score p == 0) (readAndProcessPlayerData records) /\
  exists r, main_run seedrandom rng (ReadOk records) numTeams seed = RunOk r /\
    Forall (fun line => snd line = 1%nat) (assignment_lines r).
Proof.
  intros HN HB Hrec.
  pose proof (read_scores_zero records Hrec) as Hz. split; [exact Hz|].
  set (ps := readAndProcessPlayerData records) in *.
  exists (make_report (bestAssignment (run_trials seedrandom rng ps numTeams seed))).
  split; [apply main_run_ok, HB|].
  destruct (run_trials_best_is_trial G seedrandom rng ps numTeams seed) as (k & _ & Hk).
  unfold make_report. cbn [assignment_lines]. rewrite Hk.
  destruct (zero_scores_trial seedrandom rng ps numTeams seed k HN Hz)
    as (t & rest & E & Hid & _ & Hrest).
  rewrite E. apply Forall_forall. intros line Hl.
  apply in_flat_map in Hl. destruct Hl as (u & Hu & Hl).
  apply in_map_iff in Hl. destruct Hl as (p & <- & Hp). cbn [snd].
  apply (Permutation_in _ (sort_by_id_perm _)) in Hu.
  destruct Hu as [<-|Hu]; [exact Hid|].
  rewrite Forall_forall in Hrest. rewrite (Hrest u Hu) in Hp. destruct Hp.
Qed.

Lemma identical_rows_all_in_team_one_witness :
  let recs := [mkRecord "a" 3 1 2; mkRecord "b" 3 1 2] in
  (1 <= 2)%Z /\ (2 < 4294967296)%Z /\
  (forall r1 r2, In r1 recs -> In r2 recs ->
     rec_historical_event_engagements r1 == rec_historical_event_engagements r2 /\
     rec_historical_messages_sent r1 == rec_historical_messages_sent r2 /\
     rec_days_active_last_30 r1 == rec_days_active_last_30 r2) /\
  Forall (fun p => engagement_score p == 0) (readAndProcessPlayerData recs) /\
  exists r, main_run sample_seedrandom sample_rng (ReadOk recs) 2 "4" = RunOk r /\
    Forall (fun line => snd line = 1%nat) (assignment_lines r).
Proof.
  intros recs.
  assert (Hrec : forall r1 r2, In r1 recs -> In r2 recs ->
     rec_historical_event_engagements r1 == rec_historical_event_engagements r2 /\
     rec_historical_messages_sent r1 == rec_historical_messages_sent r2 /\
     rec_days_active_last_30 r1 == rec_days_active_last_30 r2).
  { intros r1 r2 [<-|[<-|[]]] [<-|[<-|[]]]; repeat split; reflexivity. }
  split; [lia|]. split; [lia|]. split; [exact Hrec|].
  apply identical_rows_all_in_team_one; [lia|lia|exact Hrec].
Defined.

(** ** Trial seeds *)

Lemma append_cancel_l (s x y : string) : String.append s x = String.append s y -> x = y.
Proof.
  induction s as [|c s IH]; simpl; intros H; [exact H|].
  injection H as H. apply IH, H.
Qed.

(** Extra: the ten trials of a run use pairwise distinct seed strings
    [`${seed}-${i}`]. *)
Theorem trial_seeds_distinct (seed : string) (i j : nat) :
  (i < trials)%nat -> (j < trials)%nat -> i <> j -> trialSeed seed i <> trialSeed seed j.
Proof.
  intros Hi Hj Hij E. unfold trialSeed in E.
  apply append_cancel_l in E. simpl in E. injection E as E.
  unfold trials in Hi, Hj.
  do 10 (destruct i as [|i]; [do 10 (destruct j as [|j]; [try congruence; discriminate E|]); lia|]).
  lia.
Qed.

Lemma trial_seeds_distinct_witness :
  (0 < trials)%nat /\ (9 < trials)%nat /\ 0%nat <> 9%nat /\ trialSeed "42" 0 <> trialSeed "42" 9.
Proof.
  split; [unfold trials; lia|]. split; [unfold trials; lia|]. split; [discriminate|].
  apply trial_seeds_distinct; unfold trials; lia.
Defined.
